(** * css-vars-ponyfill: the custom-property resolution engine

    A shallow embedding of [src/transform-css.js] (the rule filter, the
    variable collector and the value resolver) and of the chunk
    coalescing step of [src/index.js], with the properties of the
    specification stated over it.

    Conventions of the embedding.
    - A JavaScript string is a [string]: a sequence of code units, of
      which the ones below 256 are represented.
    - An index returned by [indexOf] is a [Z], with [-1] for "not found",
      as in the source.
    - The plain object [map] of [transformVars] is a [gmap string string];
      a read [map[name]] of an absent key is [None] ([undefined]).  Only
      own properties are modelled, and the statements are about names
      that start with two hyphens, which no inherited property has.
    - A call that can throw returns in the monad [M]: the warnings passed
      to [settings.onWarning] so far, and how the call ended.
    - A loop or a recursion of the source that is not structural takes a
      bound on its turns ([fuel]); [Diverged] is the outcome of a call that
      the bound cuts short.
    - The rule tree is what [parseCss] returns and [stringifyCss] takes;
      both, and [walkCss], are outside the sources at hand. *)

From Stdlib Require Import ZArith Lia Ascii.
From stdpp Require Import base option list strings pretty gmap.

Local Open Scope Z_scope.

(** ** JavaScript string primitives *)

Module JsString.

(** [s.length] *)
Definition len (s : string) : Z := Z.of_nat (String.length s).

(** The code units of [s] from position [n] on. *)
Fixpoint sdrop (n : nat) (s : string) : string :=
  match n, s with
  | O, _ => s
  | S n', String _ s' => sdrop n' s'
  | S _, EmptyString => EmptyString
  end.

(** The first [n] code units of [s]. *)
Fixpoint stake (n : nat) (s : string) : string :=
  match n, s with
  | S n', String c s' => String c (stake n' s')
  | _, _ => EmptyString
  end.

(** [s.startsWith(p)], the test behind every anchored search. *)
Fixpoint startsWith (p s : string) : bool :=
  match p, s with
  | EmptyString, _ => true
  | String a p', String b s' => if Ascii.eqb a b then startsWith p' s' else false
  | String _ _, EmptyString => false
  end.

(** Position of the first occurrence of [needle] in [s], if any. *)
Fixpoint find (needle s : string) : option nat :=
  if startsWith needle s then Some O
  else match s with
       | EmptyString => None
       | String _ s' => S <$> find needle s'
       end.

(** [s.indexOf(needle, from)]: a negative [from] counts as [0]. *)
Definition indexOf (s needle : string) (from : Z) : Z :=
  let k := Z.to_nat from in
  if Z.of_nat (String.length s) <? Z.of_nat k then
    (if String.eqb needle EmptyString then len s else -1)
  else
    match find needle (sdrop k s) with
    | Some i => Z.of_nat (k + i)
    | None => -1
    end.

(** [s.substring(from)]: a negative [from] (such as the [-1] of a failed
    [indexOf]) counts as [0]. *)
Definition substring (s : string) (from : Z) : string := sdrop (Z.to_nat from) s.

(** [s.slice(from, to)] for [from] and [to] that are not negative. *)
Definition slice (s : string) (from to : Z) : string :=
  stake (Z.to_nat (to - from)) (sdrop (Z.to_nat from) s).

(** [s.split(sep)] for a separator that is not empty.  [skip] counts the
    code units of a separator just recognised that are still to be passed
    over, [piece] is the piece read so far. *)
Fixpoint split_go (sep : string) (skip : nat) (piece : string) (s : string)
  : list string :=
  match s with
  | EmptyString => [piece]
  | String c s' =>
      match skip with
      | S k => split_go sep k piece s'
      | O =>
          if startsWith sep s
          then piece :: split_go sep (String.length sep - 1) EmptyString s'
          else split_go sep O (piece +:+ String c EmptyString) s'
      end
  end.

Definition split (s sep : string) : list string := split_go sep O EmptyString s.

(** [pieces.join(sep)] *)
Fixpoint join (sep : string) (pieces : list string) : string :=
  match pieces with
  | [] => EmptyString
  | [p] => p
  | p :: rest => p +:+ sep +:+ join sep rest
  end.

(** [Boolean(s)] for a string: only the empty string is falsy. *)
Definition truthy (s : string) : bool := negb (String.eqb s EmptyString).

(** [String(v)] for a value that is a string or [undefined]. *)
Definition ofOption (v : option string) : string := default "undefined" v.

(** Every code unit of [s] is in the class [q]. *)
Fixpoint all_chars (q : ascii -> bool) (s : string) : bool :=
  match s with
  | EmptyString => true
  | String c s' => q c && all_chars q s'
  end.

(** [s] does not begin with a code unit of the class [q]. *)
Definition head_outside (q : ascii -> bool) (s : string) : bool :=
  match s with
  | EmptyString => true
  | String c _ => negb (q c)
  end.

End JsString.

Import JsString.

(** ** The monad of the transform: warnings and completion *)

(** The only error the modelled code raises itself: reading a property of
    [undefined]. *)
Inductive exn : Type := TypeError.

(** How a call ends.  [Diverged] stands for a call that is still running
    when the fuel given to the model is used up. *)
Inductive outcome (A : Type) : Type :=
| Returned (a : A)
| Thrown (e : exn)
| Diverged.
Arguments Returned {A} a.
Arguments Thrown {A} e.
Arguments Diverged {A}.

(** A computation: the messages passed to [settings.onWarning], in call
    order, and the outcome. *)
Definition M (A : Type) : Type := (list string * outcome A)%type.

Definition ret {A} (a : A) : M A := ([], Returned a).
Definition throw {A} (e : exn) : M A := ([], Thrown e).
Definition diverge {A} : M A := ([], Diverged).
Definition warn (msg : string) : M unit := ([msg], Returned tt).

Definition bind {A B} (m : M A) (k : A -> M B) : M B :=
  match m with
  | (w, Returned a) => let '(w', r) := k a in (w ++ w', r)
  | (w, Thrown e) => (w, Thrown e)
  | (w, Diverged) => (w, Diverged)
  end.

Notation "'let*' x := m 'in' k" := (bind m (fun x => k))
  (at level 10, x name, m at level 100, k at level 200).

Definition when (b : bool) (m : M unit) : M unit := if b then m else ret tt.

(** The calls of an array method ([forEach], [map], [filter]) on the
    elements in order. *)
Section MapM.
Context {A B : Type} (f : A -> M B).
Fixpoint mapM (l : list A) : M (list B) :=
  match l with
  | [] => ret []
  | x :: l' => let* y := f x in let* ys := mapM l' in ret (y :: ys)
  end.
End MapM.

(** ** The imported [balanced-match] function *)

(** [balanced] is imported from the package [balanced-match], which is not
    among the sources.  It finds the first balanced pair of an opening and
    a closing string in a text, nested pairs included; what it does on a
    text that is not balanced follows the loop of that package. *)
Module Balanced.

(** The object that [balanced] returns; [end_] is [None] where the
    package leaves [end] undefined. *)
Record match_result : Type := {
  start : Z;
  end_ : option Z;
  pre : string;
  body : string;
  post : string
}.

(** Modelled from the spec: the loop of [range] in [balanced-match].  [i]
    runs over the positions of the opening and closing strings, [begs] is
    the stack of the openings not yet closed.  The result is the state
    after the loop. *)
Fixpoint range_loop (fuel : nat) (a b str : string) (ai bi i : Z)
    (begs : list Z) (left_ : Z) (right_ : option Z) (result : option (Z * option Z))
  : list Z * Z * option Z * option (Z * option Z) :=
  match fuel with
  | O => (begs, left_, right_, result)
  | S fuel' =>
      if (0 <=? i) && negb (bool_decide (is_Some result)) then
        if i =? ai then
          let begs := i :: begs in
          let ai := indexOf str a (i + 1) in
          let i := if (ai <? bi) && (0 <=? ai) then ai else bi in
          range_loop fuel' a b str ai bi i begs left_ right_ result
        else
          match begs with
          | [beg] =>
              let result := Some (beg, Some bi) in
              let i := if (ai <? bi) && (0 <=? ai) then ai else bi in
              range_loop fuel' a b str ai bi i [] left_ right_ result
          | _ =>
              let beg := hd_error begs in
              let begs := tl begs in
              let '(left_, right_) :=
                match beg with
                | Some beg => if beg <? left_ then (beg, Some bi) else (left_, right_)
                | None => (left_, right_)
                end in
              let bi := indexOf str b (i + 1) in
              let i := if (ai <? bi) && (0 <=? ai) then ai else bi in
              range_loop fuel' a b str ai bi i begs left_ right_ result
          end
      else (begs, left_, right_, result)
  end.

(** Modelled from the spec: [range(a, b, str)] of [balanced-match], the
    positions of the first balanced pair, or [None] for [undefined].
    Every turn of the loop moves [i] to a later position of [str], so the
    fuel given covers the whole loop ([range_fuel_enough] below). *)
Definition range (a b str : string) : option (Z * option Z) :=
  let ai := indexOf str a 0 in
  let bi := indexOf str b (ai + 1) in
  if (0 <=? ai) && (0 <? bi) then
    let '(begs, left_, right_, result) :=
      range_loop (S (String.length str)) a b str ai bi ai [] (len str) None None in
    match begs with
    | [] => result
    | _ => Some (left_, right_)
    end
  else None.

(** Modelled from the spec: [balanced(a, b, str)] of [balanced-match]. *)
Definition balanced (a b str : string) : option match_result :=
  match range a b str with
  | None => None
  | Some (r0, r1) =>
      Some {| start := r0;
              end_ := r1;
              pre := slice str 0 r0;
              body := slice str (r0 + len a) (default (len str) r1);
              post := match r1 with
                      | Some r1 => substring str (r1 + len b)
                      | None => str
                      end |}
  end.

End Balanced.

Import Balanced.

(** ** Regular expressions *)

Module Regex.

(** The part of the pattern language that the patterns without groups
    use. *)
Inductive regex : Type :=
| Class (p : ascii -> bool)
| Lit (s : string)
| Seq (r1 r2 : regex)
| Alt (r1 r2 : regex)
| Star (r : regex).

Definition Plus (r : regex) : regex := Seq r (Star r).

(** Backtracking match of [r] at the start of [s]; [k] decides on the rest
    of the input.  A turn of a star that consumes nothing is refused, as
    the language prescribes. *)
Fixpoint matches (r : regex) (s : string) (k : string -> bool) : bool :=
  match r with
  | Class p => match s with String c s' => p c && k s' | EmptyString => false end
  | Lit l => startsWith l s && k (sdrop (String.length l) s)
  | Seq r1 r2 => matches r1 s (fun s' => matches r2 s' k)
  | Alt r1 r2 => matches r1 s k || matches r2 s k
  | Star r1 =>
      (fix turn (n : nat) (s : string) : bool :=
         match n with
         | O => k s
         | S n' =>
             matches r1 s (fun s' =>
               (String.length s' <? String.length s)%nat && turn n' s')
             || k s
         end) (String.length s) s
  end.

(** [r.test(s)] for a pattern that begins with the anchor of the start of
    the input: a match at the start of [s]. *)
Definition test_start (r : regex) (s : string) : bool :=
  matches r s (fun _ => true).

(** [r.test(s)] for a pattern without anchor and without the global flag:
    a match at some position of [s]. *)
Fixpoint test (r : regex) (s : string) : bool :=
  matches r s (fun _ => true)
  || match s with EmptyString => false | String _ s' => test r s' end.

End Regex.

Import Regex.

(** *** The patterns of [transform-css.js] *)

(** Character classes, by code unit. *)
Definition is_digit (c : ascii) : bool :=
  let n := nat_of_ascii c in (48 <=? n)%nat && (n <=? 57)%nat.

(** [\w]: a letter, a digit or the underscore. *)
Definition is_word (c : ascii) : bool :=
  let n := nat_of_ascii c in
  ((65 <=? n)%nat && (n <=? 90)%nat) || ((97 <=? n)%nat && (n <=? 122)%nat)
  || is_digit c || (n =? 95)%nat.

(** [[\w-]] *)
Definition is_name_char (c : ascii) : bool :=
  is_word c || (nat_of_ascii c =? 45)%nat.

(** [\s]: tab, line feed, vertical tab, form feed, carriage return, space
    and the no-break space. *)
Definition is_space (c : ascii) : bool :=
  let n := nat_of_ascii c in
  ((9 <=? n)%nat && (n <=? 13)%nat) || (n =? 32)%nat || (n =? 160)%nat.

(** [.]: any code unit but a line terminator. *)
Definition is_dot (c : ascii) : bool :=
  let n := nat_of_ascii c in negb ((n =? 10)%nat || (n =? 13)%nat).

(** The class of one code unit, and the class of the code units of [cs]. *)
Definition char_is (c : ascii) : ascii -> bool := Ascii.eqb c.
Fixpoint char_in (cs : string) (c : ascii) : bool :=
  match cs with
  | EmptyString => false
  | String a cs' => Ascii.eqb a c || char_in cs' c
  end.

(** The longest prefix of [s] made of code units in the class [p], and the
    rest: what a greedy [p*] consumes when nothing after it forces it to
    give code units back. *)
Fixpoint span (p : ascii -> bool) (s : string) : string * string :=
  match s with
  | EmptyString => (EmptyString, EmptyString)
  | String c s' =>
      if p c then let '(a, b) := span p s' in (String c a, b)
      else (EmptyString, s)
  end.

(** [reVarProp], the pattern [/^--/], without its anchor. *)
Definition reVarProp : regex := Lit "--".

(** [reVarVal], without its anchor: the pattern is the anchor, [var], and
    a group that holds the starred dot.  The parentheses of the pattern are
    a group, not literal parentheses. *)
Definition reVarVal : regex := Seq (Lit "var") (Star (Class is_dot)).

(** [reVarProp.test(x)] and [reVarVal.test(x)]; [x] is converted to a
    string first, so that [undefined] is tested as that word. *)
Definition reVarProp_test (x : option string) : bool :=
  test_start reVarProp (ofOption x).
Definition reVarVal_test (x : option string) : bool :=
  test_start reVarVal (ofOption x).

(** [key.replace(/^-+/, '')]: the leading hyphens are removed. *)
Definition strip_hyphens (key : string) : string :=
  snd (span (char_is "-") key).

(** A match of [RE_VAR] anchored at the start of [s]: group 1, group 2 and
    the text after the match.  The pattern is, in order: group 1, one or
    more of [[\w-]]; optionally [\s*,\s*]; optionally group 2, the starred
    dot.  Each quantified class is followed by a code unit outside the class
    or by a part that matches the empty string, so the greedy choice is the
    match.  Group 2 is [undefined] when the dot has nothing to take. *)
Definition RE_VAR_at (s : string) : option (string * option string * string) :=
  let '(name, r1) := span is_name_char s in
  if truthy name then
    let r2 := match snd (span is_space r1) with
              | String "," r => snd (span is_space r)
              | _ => r1
              end in
    let '(fallback, rest) := span is_dot r2 in
    Some (name, if truthy fallback then Some fallback else None, rest)
  else None.

(** [s.replace(RE_VAR, fn)]: the leftmost match is replaced by the string
    form of what [fn] returns for its two groups; a string without a match
    is returned as it is. *)
Fixpoint RE_VAR_replace (fn : string -> option string -> M (option string))
    (s : string) : M string :=
  match RE_VAR_at s with
  | Some (name, fallback, rest) =>
      let* r := fn name fallback in ret (ofOption r +:+ rest)
  | None =>
      match s with
      | EmptyString => ret EmptyString
      | String c s' => let* r := RE_VAR_replace fn s' in ret (String c r)
      end
  end.

(** ** The value resolver *)

Definition VAR_PROP_IDENTIFIER : string := "--".
Definition VAR_FUNC_IDENTIFIER : string := "var".
Definition warningIntro : string := "CSS transform warning:".
Definition dquote : string := String (ascii_of_nat 34) EmptyString.

(** The warning of [resolveValue] for a variable without a value. *)
Definition undefinedWarning (name : string) : string :=
  warningIntro +:+ " variable " +:+ dquote +:+ name +:+ dquote +:+ " is undefined".

(** [!v] for a value that is a string or [undefined]. *)
Definition falsy (v : option string) : bool :=
  match v with Some s => negb (truthy s) | None => true end.

(** The function passed to [varRef.replace] in [resolveValue].  The read
    [map[name]] is the read of an own property: [map] starts empty and is
    written at names that start with two hyphens only. *)
Definition replaceVar (map : gmap string string) (name : string)
    (fallback : option string) : M (option string) :=
  let replacement := map !! name in
  let* _ := when (falsy replacement && falsy fallback)
              (warn (undefinedWarning name)) in
  if falsy replacement && negb (falsy fallback) then ret fallback
  else ret replacement.

(** One call of [resolveValue], up to the test that decides on the
    recursive call: the value with the first reference substituted. *)
Definition substituteVar (value : string) (map : gmap string string) : M string :=
  let balancedParens := balanced "(" ")" value in
  let varStartIndex := indexOf value "var(" 0 in
  match balanced "(" ")" (substring value varStartIndex) with
  | None => throw TypeError
  | Some b =>
      let varRef := body b in
      let* _ := when (negb (bool_decide (is_Some balancedParens)))
                  (warn (warningIntro +:+ " missing closing " +:+ dquote +:+ ")"
                         +:+ dquote +:+ " in the value " +:+ dquote +:+ value
                         +:+ dquote)) in
      let* _ := when (String.eqb varRef "")
                  (warn (warningIntro
                         +:+ " var() must contain a non-whitespace string")) in
      let varFunc := VAR_FUNC_IDENTIFIER +:+ "(" +:+ varRef +:+ ")" in
      let* varResult := RE_VAR_replace (replaceVar map) varRef in
      ret (join varResult (split value varFunc))
  end.

(** [resolveValue(value, map, settings)]; [fuel] bounds the depth of the
    recursion. *)
Fixpoint resolveValue (fuel : nat) (value : string) (map : gmap string string)
  : M string :=
  match fuel with
  | O => diverge
  | S fuel' =>
      let* value := substituteVar value map in
      if negb (indexOf value VAR_FUNC_IDENTIFIER 0 =? -1)
      then resolveValue fuel' value map
      else ret value
  end.

(** ** The rule tree *)

(** An entry of a declaration list: a declaration (its [type] is
    [declaration]) or a comment. *)
Inductive decl : Type :=
| Declaration (property value : string)
| DeclComment (comment : string).

(** The fields [property] and [value] of an entry; a comment has
    neither. *)
Definition decl_property (d : decl) : option string :=
  match d with Declaration p _ => Some p | DeclComment _ => None end.
Definition decl_value (d : decl) : option string :=
  match d with Declaration _ v => Some v | DeclComment _ => None end.

(** An entry of the [keyframes] list of a keyframes rule. *)
Inductive keyframe : Type :=
| Keyframe (values : list string) (declarations : list decl)
| KeyframeComment (comment : string).

(** A rule, by the field the code looks for: [declarations] (a rule, a page
    rule, a font-face rule; [selectors] is empty where the rule has none),
    [keyframes], [rules] (media, supports, document, host), or none of the
    three (a comment, an import, a charset, ...). *)
#[warnings="-register-all"] Inductive rule : Type :=
| RuleDecls (type : string) (selectors : list string) (declarations : list decl)
| RuleKeyframes (name : string) (keyframes : list keyframe)
| RuleNested (type : string) (prelude : string) (rules : list rule)
| RuleOther (type : string) (text : string).

(** The options of [transformVars] after [mergeDeep(defaults, options)];
    [variables] lists the entries of the object in the order of
    [Object.keys].  [onWarning] is the log of the monad [M]. *)
Record settings : Type := {
  onlyVars : bool;
  preserve : bool;
  variables : list (string * string)
}.

Definition defaults : settings :=
  {| onlyVars := true; preserve := true; variables := [] |}.

(** ** The rule filter *)

(** [Boolean(n)] for a length. *)
Definition nonzero (n : nat) : bool := negb (n =? 0)%nat.

(** The test of both [filter] callbacks on a declaration [d]. *)
Definition isVarDecl (d : decl) : bool :=
  reVarProp_test (decl_property d) || reVarVal_test (decl_value d).

(** [l.filter(fn)] for a callback that can throw. *)
Definition filterM {A} (fn : A -> M bool) (l : list A) : M (list A) :=
  let* keep := mapM (fun x => let* b := fn x in ret (if b then Some x else None)) l in
  ret (omap id keep).

(** The callback of [rules.filter] in [filterVars]: [None] when it returns
    [false], the rule as the callback leaves it when it returns [true]. *)
Fixpoint filterVars_rule (r : rule) : M (option rule) :=
  match r with
  | RuleDecls type selectors declarations =>
      let declArray := if String.eqb type "font-face" then [] else declarations in
      let declArray := List.filter isVarDecl declarations in
      ret (if nonzero (length declArray) then Some r else None)
  | RuleKeyframes name keyframes =>
      let* kept := filterM (fun k =>
                      match k with
                      | Keyframe _ declarations =>
                          ret (nonzero (length (List.filter isVarDecl declarations)))
                      | KeyframeComment _ => throw TypeError
                      end) keyframes in
      ret (if nonzero (length kept) then Some r else None)
  | RuleNested type prelude rules =>
      let* filtered := mapM filterVars_rule rules in
      let* rules := filterM (fun r =>
                       match r with
                       | RuleDecls _ _ declarations => ret (nonzero (length declarations))
                       | _ => throw TypeError
                       end) (omap id filtered) in
      ret (if nonzero (length rules) then Some (RuleNested type prelude rules) else None)
  | RuleOther _ _ => ret (Some r)
  end.

(** [filterVars(rules)] *)
Definition filterVars (rules : list rule) : M (list rule) :=
  let* filtered := mapM filterVars_rule rules in ret (omap id filtered).

(** ** The variable collector *)

(** [l.forEach(fn)] for a callback that reads the index and updates a
    state. *)
Fixpoint forEach_i {S A} (fn : S -> nat -> A -> S) (i : nat) (l : list A) (st : S) : S :=
  match l with
  | [] => st
  | x :: l' => forEach_i fn (Datatypes.S i) l' (fn st i x)
  end.

(** The callback over [rule.declarations] of a root rule: the state is
    [map] and [varNameIndices]. *)
Definition defineDecl (st : gmap string string * list nat) (i : nat) (d : decl)
  : gmap string string * list nat :=
  let '(map, varNameIndices) := st in
  match d with
  | Declaration prop value =>
      if truthy prop && (indexOf prop VAR_PROP_IDENTIFIER 0 =? 0)
      then (<[prop := value]> map, varNameIndices ++ [i])
      else st
  | DeclComment _ => st
  end.

(** The descending loop that splices the collected indices out of
    [rule.declarations]: the last index is removed first. *)
Definition spliceOut (varNameIndices : list nat) (declarations : list decl) : list decl :=
  foldr (fun i ds => delete i ds) declarations varNameIndices.

(** The callback of the definition pass on one top-level rule.  Only a rule
    with selectors and declarations has the type [rule]. *)
Definition defineRule (preserve : bool) (map : gmap string string) (r : rule)
  : gmap string string * rule :=
  match r with
  | RuleDecls type selectors declarations =>
      if negb (String.eqb type "rule") then (map, r)
      else if negb (length selectors =? 1)%nat
              || negb (bool_decide (selectors !! 0%nat = Some ":root"))
      then (map, r)
      else
        let '(map, varNameIndices) := forEach_i defineDecl 0 declarations (map, []) in
        (map, RuleDecls type selectors
                (if negb preserve then spliceOut varNameIndices declarations
                 else declarations))
  | _ => (map, r)
  end.

(** The definition pass over [cssTree.stylesheet.rules]. *)
Fixpoint defineVars (preserve : bool) (map : gmap string string) (rules : list rule)
  : gmap string string * list rule :=
  match rules with
  | [] => (map, [])
  | r :: rules' =>
      let '(map, r') := defineRule preserve map r in
      let '(map, rules'') := defineVars preserve map rules' in
      (map, r' :: rules'')
  end.

(** The name under which the override of key [key] is written: the key
    without its leading hyphens, behind two hyphens. *)
Definition normalizeKey (key : string) : string := "--" +:+ strip_hyphens key.

(** The callback over [Object.keys(settings.variables)]: the state is [map]
    and [newRule.declarations]. *)
Definition overrideVar (st : gmap string string * list decl) (entry : string * string)
  : gmap string string * list decl :=
  let '(map, newDecls) := st in
  let '(key, varValue) := entry in
  let varName := normalizeKey key in
  (<[varName := varValue]> map, newDecls ++ [Declaration varName varValue]).

(** The handling of [settings.variables]. *)
Definition overrideVars (s : settings) (map : gmap string string) (rules : list rule)
  : gmap string string * list rule :=
  if nonzero (length (variables s)) then
    let '(map, newDecls) := foldl overrideVar (map, []) (variables s) in
    (map, if preserve s then rules ++ [RuleDecls "rule" [":root"] newDecls] else rules)
  else (map, rules).

(** ** The resolution pass *)

(** The [for] loop of the callback passed to [walkCss].  [turns] bounds the
    number of turns by the length of the list as it was passed; [fuel] is
    handed to [resolveValue]. *)
Fixpoint resolveDecls_loop (turns fuel : nat) (s : settings) (map : gmap string string)
    (i : nat) (declarations : list decl) : M (list decl) :=
  match turns with
  | O => ret declarations
  | Datatypes.S turns' =>
      match declarations !! i with
      | None => ret declarations
      | Some decl =>
          match decl with
          | DeclComment _ => resolveDecls_loop turns' fuel s map (i + 1) declarations
          | Declaration property value =>
              if negb (truthy value)
                 || (indexOf value (VAR_FUNC_IDENTIFIER +:+ "(") 0 =? -1)
              then resolveDecls_loop turns' fuel s map (i + 1) declarations
              else
                let* resolvedValue := resolveValue fuel value map in
                if negb (String.eqb resolvedValue "undefined") then
                  if negb (preserve s) then
                    resolveDecls_loop turns' fuel s map (i + 1)
                      (<[i := Declaration property resolvedValue]> declarations)
                  else
                    resolveDecls_loop turns' fuel s map (i + 1 + 1)
                      (take i declarations
                         ++ Declaration property resolvedValue :: drop i declarations)
                else resolveDecls_loop turns' fuel s map (i + 1) declarations
          end
      end
  end.

(** The callback passed to [walkCss]. *)
Definition resolveDecls (fuel : nat) (s : settings) (map : gmap string string)
    (declarations : list decl) : M (list decl) :=
  resolveDecls_loop (length declarations) fuel s map 0 declarations.

(** Modelled from the spec: [walkCss] of [walk-css.js], which is not among
    the sources.  The visitor is invoked once per declaration list: for
    every rule with declarations, for every step of a keyframes rule, and
    recursively for the nested rules of a container; it may change the list
    in place. *)
Fixpoint walkCss_rule (fn : list decl -> M (list decl)) (r : rule) : M rule :=
  match r with
  | RuleNested type prelude rules =>
      let* rules := mapM (walkCss_rule fn) rules in ret (RuleNested type prelude rules)
  | RuleKeyframes name keyframes =>
      let* keyframes := mapM (fun k =>
                          match k with
                          | Keyframe values declarations =>
                              let* declarations := fn declarations in
                              ret (Keyframe values declarations)
                          | KeyframeComment _ => ret k
                          end) keyframes in
      ret (RuleKeyframes name keyframes)
  | RuleDecls type selectors declarations =>
      let* declarations := fn declarations in ret (RuleDecls type selectors declarations)
  | RuleOther _ _ => ret r
  end.

Definition walkCss (fn : list decl -> M (list decl)) (rules : list rule) : M (list rule) :=
  mapM (walkCss_rule fn) rules.

(** [transformVars(cssText, options)] between [parseCss] and
    [stringifyCss]: from the rules of the parsed tree to the rules that are
    serialised. *)
Definition transformVars (fuel : nat) (s : settings) (rules : list rule) : M (list rule) :=
  let* rules := if onlyVars s then filterVars rules else ret rules in
  let '(map, rules) := defineVars (preserve s) ∅ rules in
  let '(map, rules) := overrideVars s map rules in
  walkCss (resolveDecls fuel s map) rules.

(** ** The chunk coalescing of [index.js] *)

(** [regex.cssVars]: a root rule up to a custom property name and its
    colon, or a [var(] up to a custom property name and what ends it. *)
Definition regex_cssVars : regex :=
  Seq (Alt (Seq (Lit ":root")
              (Seq (Star (Class is_space))
                 (Seq (Lit "{")
                    (Seq (Star (Class is_space))
                       (Seq (Star (Class (fun c => negb (char_is ";" c))))
                          (Seq (Star (Class (char_is ";")))
                             (Star (Class is_space))))))))
         (Seq (Lit "var(") (Star (Class is_space))))
    (Seq (Seq (Lit "--") (Plus (Class (fun c => negb (char_in ":)" c)))))
       (Seq (Star (Class is_space)) (Class (char_in ":)")))).

(** [regex.cssKeyframes]: an at sign, optionally a vendor prefix between
    two hyphens, and the word [keyframes]. *)
Definition regex_cssKeyframes : regex :=
  Seq (Lit "@")
    (Seq (Alt (Seq (Lit "-") (Seq (Star (Class is_word)) (Lit "-"))) (Lit ""))
       (Lit "keyframes")).

(** The decimal form of an array index. *)
Definition decimal (i : nat) : string := pretty i.

(** The marker that stands for the chunk of index [i]. *)
Definition marker (i : nat) : string := "/*__CSSVARSPONYFILL-" +:+ decimal i +:+ "__*/".

(** The concatenation of [cssArray] in which a chunk that fails the test of
    [regex.cssVars] is replaced by its marker. *)
Definition coalesce (cssArray : list string) : string :=
  join "" (imap (fun i css => if test regex_cssVars css then css else marker i) cssArray).

(** A match of [cssMarker] at the start of [s]: the digits of group 1 and
    the length of the match.  The digits are followed by an underscore, so
    the greedy run of digits is the match. *)
Definition cssMarker_at (s : string) : option (string * nat) :=
  if startsWith "/*__CSSVARSPONYFILL-" s then
    let '(digits, rest) := span is_digit (sdrop 20 s) in
    if truthy digits && startsWith "__*/" rest
    then Some (digits, (20 + String.length digits + 4)%nat)
    else None
  else None.

(** The leftmost match of [cssMarker] in [s], with its position counted
    from [pos]. *)
Fixpoint cssMarker_search (pos : nat) (s : string) : option (nat * string * nat) :=
  match cssMarker_at s with
  | Some (digits, n) => Some (pos, digits, n)
  | None =>
      match s with
      | EmptyString => None
      | String _ s' => cssMarker_search (S pos) s'
      end
  end.

(** [cssMarker.exec(cssText)] for the pattern with the global flag whose
    [lastIndex] is [lastIndex]: the matched text, group 1 and the new
    [lastIndex]; [None] is [null], after which [lastIndex] is [0]. *)
Definition cssMarker_exec (cssText : string) (lastIndex : nat)
  : option (string * string * nat) :=
  if (String.length cssText <? lastIndex)%nat then None
  else
    match cssMarker_search lastIndex (sdrop lastIndex cssText) with
    | Some (pos, digits, n) => Some (stake n (sdrop pos cssText), digits, (pos + n)%nat)
    | None => None
    end.

(** The replacement text of [String.prototype.replace] for a search string:
    the dollar patterns of [replacement] are expanded.  A search string has
    no groups, so a dollar before a digit stays. *)
Fixpoint getSubstitution (matched before after replacement : string) : string :=
  match replacement with
  | String "$" (String "$" r) => String "$" (getSubstitution matched before after r)
  | String "$" (String "&" r) => matched +:+ getSubstitution matched before after r
  | String "$" (String "`" r) => before +:+ getSubstitution matched before after r
  | String "$" (String "'" r) => after +:+ getSubstitution matched before after r
  | String c r => String c (getSubstitution matched before after r)
  | EmptyString => EmptyString
  end.

(** [s.replace(search, replacement)] for two strings: the first occurrence
    of [search] is replaced. *)
Definition replaceString (s search replacement : string) : string :=
  match find search s with
  | None => s
  | Some k =>
      let before := stake k s in
      let after := sdrop (k + String.length search) s in
      before +:+ getSubstitution search before after replacement +:+ after
  end.

(** [cssArray[cssArrayIndex]] for an index that is a string of digits: the
    element whose index has that decimal form, [undefined] when none has. *)
Definition cssArray_get (cssArray : list string) (cssArrayIndex : string) : option string :=
  snd <$> List.find (fun e => String.eqb (decimal (fst e)) cssArrayIndex)
            (imap (fun i css => (i, css)) cssArray).

(** The loop that replaces the markers in the transformed text; [fuel]
    bounds its turns. *)
Fixpoint restoreMarkers (fuel : nat) (cssArray : list string) (cssText : string)
    (lastIndex : nat) : outcome string :=
  match fuel with
  | O => Diverged
  | S fuel' =>
      match cssMarker_exec cssText lastIndex with
      | None => Returned cssText
      | Some (matchedText, cssArrayIndex, lastIndex') =>
          restoreMarkers fuel' cssArray
            (replaceString cssText matchedText
               (ofOption (cssArray_get cssArray cssArrayIndex)))
            lastIndex'
      end
  end.

(** The text handed to [settings.onComplete] when [transformCss] returns:
    the chunks are coalesced, transformed as one text, and the markers are
    replaced.  [transformCss] stands for the call with the options of
    [settings]. *)
Definition onComplete (fuel : nat) (transformCss : string -> string)
    (cssArray : list string) : outcome string :=
  restoreMarkers fuel cssArray (transformCss (coalesce cssArray)) 0.

(** ** Vocabulary of the statements

    Tests and functions that the properties below are stated with.  None
    of them is part of the program. *)

(** The value holds the text [var]; the value holds a reference, [var]
    followed by an opening parenthesis. *)
Definition hasVarToken (value : string) : bool :=
  negb (indexOf value VAR_FUNC_IDENTIFIER 0 =? -1).
Definition hasVarFunction (value : string) : bool :=
  negb (indexOf value (VAR_FUNC_IDENTIFIER +:+ "(") 0 =? -1).

(** A code unit that is not a parenthesis. *)
Definition no_paren (c : ascii) : bool :=
  negb (Ascii.eqb "(" c) && negb (Ascii.eqb ")" c).

(** The name of a custom property, which [RE_VAR] takes whole: two
    hyphens, then letters, digits, underscores and hyphens.  No property
    that a plain object inherits has such a name, so that a read of the map
    at such a name is a read of what the transform wrote. *)
Definition is_name (name : string) : bool :=
  startsWith VAR_PROP_IDENTIFIER name && all_chars is_name_char name.

(** The text is balanced for a reader who has [d] parentheses open and
    must have none open at the end. *)
Fixpoint nested (d : nat) (s : string) : bool :=
  match s with
  | EmptyString => (d =? 0)%nat
  | String c s' =>
      if Ascii.eqb "(" c then nested (S d) s'
      else if Ascii.eqb ")" c then
        match d with O => false | S d' => nested d' s' end
      else nested d s'
  end.

(** The offset in [t] of the parenthesis that closes the outermost of [d]
    open ones. *)
Fixpoint closes (d : nat) (t : string) : option nat :=
  match t with
  | EmptyString => None
  | String c t' =>
      if Ascii.eqb "(" c then S <$> closes (S d) t'
      else if Ascii.eqb ")" c then
        match d with
        | O => None
        | S O => Some O
        | S d' => S <$> closes d' t'
        end
      else S <$> closes d t'
  end.

(** A fallback that [RE_VAR] takes whole: not empty, on one line, not
    starting with white space, with balanced parentheses. *)
Definition is_fallback (fb : string) : bool :=
  truthy fb && all_chars is_dot fb && head_outside is_space fb && nested 0 fb.

(** What a reference that is only a name is replaced by: the value of the
    name, with a warning when that value is empty, or the word [undefined]
    with the same warning when the name has no value. *)
Definition lookupVar (map : gmap string string) (name : string) : M string :=
  match map !! name with
  | Some v =>
      if truthy v then ret v
      else let* _ := warn (undefinedWarning name) in ret v
  | None => let* _ := warn (undefinedWarning name) in ret "undefined"
  end.

(** The position of the next occurrence of [needle] in the text [t] that
    starts at position [pos], as [indexOf] reports it. *)
Definition nextIndex (needle : string) (pos : nat) (t : string) : Z :=
  match find needle t with
  | Some k => Z.of_nat (pos + k)
  | None => -1
  end.

(** The choice of the next [i] in [range]. *)
Definition cursor (ai bi : Z) : Z := if (ai <? bi) && (0 <=? ai) then ai else bi.

(** What the loop of [resolveDecls] turns one declaration of the list
    into. *)
Definition resolveDecl (fuel : nat) (s : settings) (map : gmap string string)
    (d : decl) : M (list decl) :=
  match d with
  | DeclComment _ => ret [d]
  | Declaration property value =>
      if negb (truthy value)
         || (indexOf value (VAR_FUNC_IDENTIFIER +:+ "(") 0 =? -1)
      then ret [d]
      else
        let* resolvedValue := resolveValue fuel value map in
        if String.eqb resolvedValue "undefined" then ret [d]
        else if preserve s then ret [Declaration property resolvedValue; d]
        else ret [Declaration property resolvedValue]
  end.

(** The test of [defineDecl] on a property name. *)
Definition isVarProp (prop : string) : bool :=
  truthy prop && (indexOf prop VAR_PROP_IDENTIFIER 0 =? 0).

(** A declaration that the definition pass takes for a definition, and the
    indices of the definitions of a list whose first index is [i]. *)
Definition isDefinition (d : decl) : bool :=
  match d with Declaration prop _ => isVarProp prop | DeclComment _ => false end.
Fixpoint positions (i : nat) (declarations : list decl) : list nat :=
  match declarations with
  | [] => []
  | d :: ds => (if isDefinition d then [i] else []) ++ positions (S i) ds
  end.

(** The test of [defineRule]: a rule whose only selector is [:root]. *)
Definition isRootRule (r : rule) : bool :=
  match r with
  | RuleDecls type selectors _ =>
      String.eqb type "rule" && (length selectors =? 1)%nat
      && bool_decide (selectors !! 0%nat = Some ":root")
  | _ => false
  end.

(** The definitions of a declaration list, in order. *)
Definition definitionsOf (declarations : list decl) : list (string * string) :=
  omap (fun d => match d with
                 | Declaration prop value =>
                     if isVarProp prop then Some (prop, value) else None
                 | DeclComment _ => None
                 end) declarations.

(** The definitions of the top-level root rules, in document order. *)
Definition rootDefinitions (rules : list rule) : list (string * string) :=
  flat_map (fun r => match r with
                     | RuleDecls _ _ declarations =>
                         if isRootRule r then definitionsOf declarations else []
                     | _ => []
                     end) rules.

(** The overrides under their normalised names, in the order of the keys. *)
Definition overrideEntries (variables : list (string * string)) : list (string * string) :=
  (fun e => (normalizeKey e.1, e.2)) <$> variables.

(** The writes [map[name] = value] for the entries in order. *)
Definition writeAll (map : gmap string string) (entries : list (string * string))
  : gmap string string :=
  foldl (fun m e => <[e.1 := e.2]> m) map entries.

(** The map with which the resolution pass runs: the root definitions in
    document order, then the overrides. *)
Definition variableMap (s : settings) (rules : list rule) : gmap string string :=
  writeAll (writeAll ∅ (rootDefinitions rules)) (overrideEntries (variables s)).

(** [k] hyphens. *)
Fixpoint hyphens (k : nat) : string :=
  match k with O => "" | S k' => String "-" (hyphens k') end.

(** A variable defined by a reference to itself. *)
Definition cyclicMap : gmap string string := {[ "--a" := "var(--a)" ]}.

(** ** Vocabulary of the further properties *)

(** The warning of [resolveValue] for a value without a balanced pair, and
    the test that recognises it among the warnings. *)
Definition missingClosingWarning (value : string) : string :=
  warningIntro +:+ " missing closing " +:+ dquote +:+ ")" +:+ dquote
    +:+ " in the value " +:+ dquote +:+ value +:+ dquote.
Definition isMissingClosing (msg : string) : bool :=
  startsWith (warningIntro +:+ " missing closing ") msg.

(** What the resolution pass without preserve may turn the declaration
    [d] into: [d] itself, or the declaration of the same property whose
    value is a resolved value, which holds no [var] and is not the word
    [undefined]. *)
Definition resolvedInto (d d' : decl) : Prop :=
  d' = d \/
  exists property value resolved,
    d = Declaration property value /\ d' = Declaration property resolved /\
    hasVarToken resolved = false /\ resolved <> "undefined".

(** An entry of a keyframes list that is a step, and a step one of whose
    declarations passes the test of the filter. *)
Definition isStep (k : keyframe) : bool :=
  match k with Keyframe _ _ => true | KeyframeComment _ => false end.
Definition hasVarStep (k : keyframe) : bool :=
  match k with
  | Keyframe _ declarations => existsb isVarDecl declarations
  | KeyframeComment _ => false
  end.

(** A rule with declarations, and one of them that holds a declaration
    that passes the test of the filter. *)
Definition isPlainRule (r : rule) : bool :=
  match r with RuleDecls _ _ _ => true | _ => false end.
Definition hasVarDecl (r : rule) : bool :=
  match r with
  | RuleDecls _ _ declarations => existsb isVarDecl declarations
  | _ => false
  end.

(** What a rule that the filter keeps looks like: a declaration passes the
    test; or every entry is a step and a declaration of a step passes the
    test; or the nested rules are rules with declarations, one at least,
    each with a declaration that passes the test. *)
Definition survivor (r : rule) : bool :=
  match r with
  | RuleDecls _ _ declarations => existsb isVarDecl declarations
  | RuleKeyframes _ keyframes => forallb isStep keyframes && existsb hasVarStep keyframes
  | RuleNested _ _ rules => nonzero (length rules) && forallb hasVarDecl rules
  | RuleOther _ _ => true
  end.

(** A top-level rule after the definition pass without preserve: a root
    rule without its definitions, any other rule as it is. *)
Definition withoutDefinitions (r : rule) : rule :=
  match r with
  | RuleDecls type selectors declarations =>
      if isRootRule r
      then RuleDecls type selectors
             (List.filter (fun d => negb (isDefinition d)) declarations)
      else r
  | _ => r
  end.

(** A declaration, and a rule, without a reference: no value holds [var]
    followed by an opening parenthesis. *)
Definition plainDecl (d : decl) : bool :=
  match decl_value d with
  | Some value => negb (hasVarFunction value)
  | None => true
  end.
Fixpoint plainRule (r : rule) : bool :=
  match r with
  | RuleDecls _ _ declarations => forallb plainDecl declarations
  | RuleKeyframes _ keyframes =>
      forallb (fun k => match k with
                        | Keyframe _ declarations => forallb plainDecl declarations
                        | KeyframeComment _ => true
                        end) keyframes
  | RuleNested _ _ rules => forallb plainRule rules
  | RuleOther _ _ => true
  end.

(** The rule that is appended for the overrides. *)
Definition overrideRule (variables : list (string * string)) : rule :=
  RuleDecls "rule" [":root"]
    ((fun e => Declaration (normalizeKey e.1) e.2) <$> variables).

(** The constant part of a marker before the index, and a code unit that
    is not a dollar sign. *)
Definition markerPrefix : string := "/*__CSSVARSPONYFILL-".
Definition no_dollar (c : ascii) : bool := negb (Ascii.eqb "$" c).

(** A code unit that is neither a colon nor a closing parenthesis. *)
Definition not_closing (c : ascii) : bool := negb (char_in ":)" c).

(** [t] is [s] from some position on. *)
Definition isSuffix (t s : string) : Prop := exists n, t = sdrop n s.



(** The names are defined one by the next: each but the last has a
    reference to the next as its value, and the last has [value]. *)
Fixpoint chain (map : gmap string string) (names : list string) (value : string) : Prop :=
  match names with
  | [] => False
  | name :: rest =>
      match rest with
      | [] => map !! name = Some value
      | next :: _ => map !! name = Some ("var(" +:+ next +:+ ")") /\ chain map rest value
      end
  end.

(** Every name of [P] is defined by a reference to a name of [P]. *)
Definition refersWithin (map : gmap string string) (P : string -> Prop) : Prop :=
  forall name, P name ->
    is_name name = true /\
    exists next, P next /\ map !! name = Some ("var(" +:+ next +:+ ")").

(** * Properties *)

(** ** Strings *)

Section StringFacts.

Implicit Types (s p a b : string) (c : ascii).

Lemma append_nil s : "" +:+ s = s.
Proof. reflexivity. Qed.

Lemma append_cons c a s : String c a +:+ s = String c (a +:+ s).
Proof. reflexivity. Qed.

Lemma append_empty_r s : s +:+ "" = s.
Proof.
  induction s as [|c s IH]; [done |]. by rewrite append_cons, IH.
Qed.

Lemma append_assoc a b s : (a +:+ b) +:+ s = a +:+ (b +:+ s).
Proof.
  induction a as [|c a IH]; [done |]. by rewrite !append_cons, IH.
Qed.

Lemma length_append a b :
  String.length (a +:+ b) = (String.length a + String.length b)%nat.
Proof.
  induction a as [|c a IH]; [done |]. rewrite append_cons. simpl. by rewrite IH.
Qed.

Lemma length_sdrop n s : String.length (sdrop n s) = (String.length s - n)%nat.
Proof.
  revert s. induction n as [|n IH]; intros s; cbn; [lia |].
  destruct s as [|c s]; cbn; [done | apply IH].
Qed.

Lemma startsWith_app p s : startsWith p (p +:+ s) = true.
Proof.
  induction p as [|c p IH]; [done |]. rewrite append_cons. simpl.
  by rewrite Ascii.eqb_refl.
Qed.

Lemma startsWith_refl p : startsWith p p = true.
Proof. pose proof (startsWith_app p "") as H. by rewrite append_empty_r in H. Qed.

Lemma startsWith_shorter p q s :
  startsWith (p +:+ q) s = true -> startsWith p s = true.
Proof.
  revert s. induction p as [|c p IH]; intros s; [done |].
  rewrite append_cons. destruct s as [|x s]; simpl; [done |].
  destruct (Ascii.eqb c x); [apply IH | done].
Qed.

Lemma sdrop_app a b : sdrop (String.length a) (a +:+ b) = b.
Proof. induction a as [|c a IH]; [by destruct b | done]. Qed.

Lemma stake_app a b : stake (String.length a) (a +:+ b) = a.
Proof.
  induction a as [|c a IH]; [by destruct b |].
  rewrite append_cons. simpl. by rewrite IH.
Qed.

Lemma sdrop_all s : sdrop (String.length s) s = "".
Proof. pose proof (sdrop_app s "") as H. by rewrite append_empty_r in H. Qed.

Lemma sdrop_S pos str c t : sdrop pos str = String c t -> sdrop (S pos) str = t.
Proof.
  revert str. induction pos as [|pos IH]; intros str; simpl.
  - by intros ->.
  - destruct str as [|x str]; [done |]. apply IH.
Qed.

Lemma sdrop_length pos str t :
  sdrop pos str = t -> t <> "" -> (pos + String.length t = String.length str)%nat.
Proof.
  revert str. induction pos as [|pos IH]; intros str; simpl.
  - by intros ->.
  - destruct str as [|x str]; [by intros <- |].
    intros H Ht. simpl. by rewrite <- (IH str).
Qed.

Lemma all_chars_app q a b :
  all_chars q (a +:+ b) = all_chars q a && all_chars q b.
Proof.
  induction a as [|c a IH]; [done |].
  rewrite append_cons. simpl. by rewrite IH, andb_assoc.
Qed.

Lemma all_chars_impl (q r : ascii -> bool) s :
  (forall c, q c = true -> r c = true) -> all_chars q s = true -> all_chars r s = true.
Proof.
  intros Hqr. induction s as [|c s IH]; simpl; [done |].
  intros [Hc Hs]%andb_prop. by rewrite (Hqr _ Hc), (IH Hs).
Qed.

Lemma head_outside_app (q r : ascii -> bool) a b :
  (forall c, r c = true -> q c = false) ->
  all_chars r a = true -> head_outside q b = true -> head_outside q (a +:+ b) = true.
Proof.
  intros Hrq Ha Hb. destruct a as [|c a]; [done |].
  simpl in Ha. apply andb_prop in Ha as [Hc _]. rewrite append_cons. simpl.
  by rewrite (Hrq _ Hc).
Qed.

Lemma span_app q a b :
  all_chars q a = true -> head_outside q b = true -> span q (a +:+ b) = (a, b).
Proof.
  intros Ha Hb. induction a as [|c a IH].
  - destruct b as [|c b]; simpl in *; [done |].
    by destruct (q c).
  - simpl in Ha. apply andb_prop in Ha as [Hc Ha].
    rewrite append_cons. simpl. by rewrite Hc, (IH Ha).
Qed.

Lemma span_all q a : all_chars q a = true -> span q a = (a, "").
Proof.
  intros Ha. pose proof (span_app q a "" Ha eq_refl) as H.
  by rewrite append_empty_r in H.
Qed.

Lemma find_longer p q s : find p s = None -> find (p +:+ q) s = None.
Proof.
  induction s as [|x s IH]; simpl.
  - destruct (startsWith p "") eqn:Hp; [done |].
    destruct (startsWith (p +:+ q) "") eqn:Hpq; [| done].
    by rewrite (startsWith_shorter _ _ _ Hpq) in Hp.
  - destruct (startsWith p (String x s)) eqn:Hp; [done |].
    destruct (startsWith (p +:+ q) (String x s)) eqn:Hpq.
    + by rewrite (startsWith_shorter _ _ _ Hpq) in Hp.
    + destruct (find p s); [done |]. intros _. by rewrite IH.
Qed.

Lemma find_open_bound s k : find "(" s = Some k -> (k < String.length s)%nat.
Proof.
  revert k. induction s as [|c s IH]; intros k;
    cbn [find startsWith String.length]; [done |].
  destruct (Ascii.eqb "(" c); [intros [= <-]; lia |].
  destruct (find "(" s) as [j|]; [| done].
  intros [= <-]. specialize (IH j eq_refl). lia.
Qed.

(** [indexOf] from a position inside the string. *)
Lemma indexOf_from s needle (k : nat) :
  (k <= String.length s)%nat ->
  indexOf s needle (Z.of_nat k) =
    match find needle (sdrop k s) with
    | Some i => Z.of_nat (k + i)
    | None => -1
    end.
Proof.
  intros Hk. unfold indexOf. rewrite Nat2Z.id.
  destruct (Z.ltb_spec (Z.of_nat (String.length s)) (Z.of_nat k)); [lia | done].
Qed.

Lemma indexOf_0 s needle :
  indexOf s needle 0 =
    match find needle s with Some i => Z.of_nat i | None => -1 end.
Proof. apply (indexOf_from s needle 0). lia. Qed.

Lemma indexOf_next str needle (pos : nat) :
  (pos <= String.length str)%nat ->
  indexOf str needle (Z.of_nat pos) = nextIndex needle pos (sdrop pos str).
Proof. apply indexOf_from. Qed.

Lemma nextIndex_skip needle pos c t :
  startsWith needle (String c t) = false ->
  nextIndex needle pos (String c t) = nextIndex needle (S pos) t.
Proof.
  intros H. unfold nextIndex. cbn [find]. rewrite H.
  destruct (find needle t); cbn; [f_equal; lia | done].
Qed.

Lemma nextIndex_here needle pos t :
  startsWith needle t = true -> nextIndex needle pos t = Z.of_nat pos.
Proof.
  intros H. unfold nextIndex. destruct t; cbn [find]; rewrite H; f_equal; lia.
Qed.

Lemma nextIndex_range needle pos t :
  nextIndex needle pos t = -1 \/ Z.of_nat pos <= nextIndex needle pos t.
Proof. unfold nextIndex. destruct (find needle t); [right; lia | by left]. Qed.

(** A text without the token [var] holds no reference. *)
Lemma hasVarFunction_token value :
  hasVarToken value = false -> hasVarFunction value = false.
Proof.
  unfold hasVarToken, hasVarFunction. rewrite !indexOf_0.
  destruct (find VAR_FUNC_IDENTIFIER value) as [i|] eqn:Hf.
  - intros H. apply negb_false_iff, Z.eqb_eq in H. lia.
  - intros _. by rewrite (find_longer _ "(" _ Hf).
Qed.

(** Splitting a text at itself leaves two empty pieces. *)
Lemma split_go_skip sep piece s :
  split_go sep (String.length s) piece s = [piece].
Proof. induction s as [|c s IH]; simpl; done. Qed.

Lemma split_self s : truthy s = true -> split s s = [""; ""].
Proof.
  destruct s as [|c s]; [done |]. intros _. unfold split.
  change (split_go (String c s) 0 "" (String c s))
    with (if startsWith (String c s) (String c s)
          then "" :: split_go (String c s) (String.length (String c s) - 1) "" s
          else split_go (String c s) 0 ("" +:+ String c "") s).
  rewrite startsWith_refl. simpl. rewrite Nat.sub_0_r.
  by rewrite split_go_skip.
Qed.

Lemma join_split_self s r : truthy s = true -> join r (split s s) = r.
Proof.
  intros Hs. rewrite (split_self _ Hs). simpl.
  by rewrite append_nil, append_empty_r.
Qed.

(** Facts on the character classes, by enumeration of the code units. *)
Lemma space_not_name c : is_space c = true -> is_name_char c = false.
Proof. destruct c as [[] [] [] [] [] [] [] []]; by vm_compute. Qed.

Lemma name_no_paren c : is_name_char c = true -> no_paren c = true.
Proof. destruct c as [[] [] [] [] [] [] [] []]; by vm_compute. Qed.

Lemma space_no_paren c : is_space c = true -> no_paren c = true.
Proof. destruct c as [[] [] [] [] [] [] [] []]; by vm_compute. Qed.

End StringFacts.

(** ** The monad *)

Lemma bind_ret_l {A B} (a : A) (k : A -> M B) : bind (ret a) k = k a.
Proof. unfold bind, ret. by destruct (k a). Qed.

Lemma bind_ret_r {A} (m : M A) : bind m ret = m.
Proof. destruct m as [w [a| |]]; simpl; [by rewrite app_nil_r | done | done]. Qed.

Lemma bind_ext {A B} (m : M A) (k k' : A -> M B) :
  (forall a, k a = k' a) -> bind m k = bind m k'.
Proof. intros H. destruct m as [w [a| |]]; simpl; [by rewrite H | done | done]. Qed.

Lemma bind_assoc {A B C} (m : M A) (f : A -> M B) (g : B -> M C) :
  bind (bind m f) g = bind m (fun a => bind (f a) g).
Proof.
  destruct m as [w [a| |]]; simpl; [| done | done].
  destruct (f a) as [w' [b| |]]; simpl; [| done | done].
  destruct (g b) as [w'' r]. by rewrite (assoc_L (++)).
Qed.

Lemma mapM_ret {A B} (f : A -> M B) (g : A -> B) (l : list A) :
  Forall (fun x => f x = ret (g x)) l -> mapM f l = ret (g <$> l).
Proof.
  induction 1 as [|x l Hx Hl IH]; [done |].
  cbn [mapM]. by rewrite Hx, bind_ret_l, IH, !bind_ret_l.
Qed.

Lemma concat_singletons {A} (l : list A) : concat ((fun x => [x]) <$> l) = l.
Proof. induction l as [|x l IH]; [done |]. cbn. by rewrite IH. Qed.

(** ** The first balanced pair *)

(** The search of the loop resumes one position after [pos], where the
    text goes on with [t]. *)
Local Ltac advance pos Ht :=
  replace (Z.of_nat pos + 1) with (Z.of_nat (S pos)) by lia;
  rewrite indexOf_next, Ht by lia.

(** The guard of the loop at a position of the text. *)
Local Ltac nonneg pos :=
  replace (0 <=? Z.of_nat pos) with true by (symmetry; apply Z.leb_le; lia).

Lemma range_loop_open fuel a b str ai bi begs l r :
  0 <= ai ->
  range_loop (S fuel) a b str ai bi ai begs l r None =
    let ai' := indexOf str a (ai + 1) in
    range_loop fuel a b str ai' bi
      (if (ai' <? bi) && (0 <=? ai') then ai' else bi) (ai :: begs) l r None.
Proof.
  intros Hi. simpl.
  destruct (Z.leb_spec 0 ai); [| lia]. simpl. by rewrite Z.eqb_refl.
Qed.

Lemma range_loop_done fuel a b str ai bi i begs l r res :
  range_loop fuel a b str ai bi i begs l r (Some res) = (begs, l, r, Some res).
Proof. destruct fuel; [done |]. simpl. by rewrite andb_false_r. Qed.

Lemma range_loop_exit fuel a b str ai bi i begs l r res :
  i < 0 -> range_loop fuel a b str ai bi i begs l r res = (begs, l, r, res).
Proof.
  intros Hi. destruct fuel; [done |]. simpl.
  destruct (Z.leb_spec 0 i); [lia | done].
Qed.

(** The loop from the state in which every parenthesis before [pos] has
    been dealt with does not depend on the fuel, once the fuel exceeds the
    length of what is left of the text. *)
Lemma range_loop_fuel str t :
  forall pos begs l r f1 f2,
    sdrop pos str = t -> (pos <= String.length str)%nat ->
    (String.length t < f1)%nat -> (String.length t < f2)%nat ->
    let ai := nextIndex "(" pos t in
    let bi := nextIndex ")" pos t in
    range_loop f1 "(" ")" str ai bi (cursor ai bi) begs l r None =
    range_loop f2 "(" ")" str ai bi (cursor ai bi) begs l r None.
Proof.
  induction t as [|c t IH]; intros pos begs l r f1 f2 Ht Hpos Hf1 Hf2.
  - cbn. by rewrite !range_loop_exit by done.
  - assert (Hlen : (pos + String.length (String c t) = String.length str)%nat)
      by (by apply sdrop_length).
    cbn [String.length] in *.
    pose proof (sdrop_S _ _ _ _ Ht) as Ht'.
    destruct (Ascii.eqb_spec "(" c) as [<- | Hopen].
    + (* an opening parenthesis *)
      rewrite (nextIndex_here "(") by done.
      rewrite (nextIndex_skip ")") by done.
      cbv zeta.
      pose proof (nextIndex_range ")" (S pos) t) as [Hb | Hb].
      * rewrite Hb. unfold cursor. cbn [Z.ltb Z.compare andb].
        replace (Z.of_nat pos <? -1) with false by (symmetry; apply Z.ltb_ge; lia).
        cbn [andb]. by rewrite !range_loop_exit by done.
      * unfold cursor.
        replace (Z.of_nat pos <? nextIndex ")" (S pos) t) with true
          by (symmetry; apply Z.ltb_lt; lia).
        nonneg pos.
        cbn [andb].
        destruct f1 as [|f1]; [lia |]. destruct f2 as [|f2]; [lia |].
        rewrite !range_loop_open by lia. cbv zeta.
        advance pos Ht'.
        apply (IH (S pos)); [done | lia | lia | lia].
    + destruct (Ascii.eqb_spec ")" c) as [<- | Hclose].
      * (* a closing parenthesis *)
        rewrite (nextIndex_skip "(") by done.
        rewrite (nextIndex_here ")") by done. cbv zeta.
        assert (Hcur : cursor (nextIndex "(" (S pos) t) (Z.of_nat pos) = Z.of_nat pos).
        { unfold cursor.
          pose proof (nextIndex_range "(" (S pos) t) as [Ha | Ha].
          - rewrite Ha. by rewrite andb_false_r.
          - replace (nextIndex "(" (S pos) t <? Z.of_nat pos) with false
              by (symmetry; apply Z.ltb_ge; lia). done. }
        rewrite Hcur.
        assert (Hne : (Z.of_nat pos =? nextIndex "(" (S pos) t) = false).
        { apply Z.eqb_neq. pose proof (nextIndex_range "(" (S pos) t). lia. }
        destruct f1 as [|f1]; [lia |]. destruct f2 as [|f2]; [lia |].
        cbn [range_loop].
        nonneg pos.
        cbn [andb negb bool_decide decide_rel is_Some_dec]. rewrite Hne.
        destruct begs as [|beg [|beg' begs]].
        -- cbn [hd_error tl].
           advance pos Ht'.
           apply (IH (S pos)); [done | lia | lia | lia].
        -- by rewrite !range_loop_done.
        -- cbn [hd_error tl].
           advance pos Ht'.
           destruct (beg <? l); (apply (IH (S pos)); [done | lia | lia | lia]).
      * (* any other code unit *)
        assert (H1 : startsWith "(" (String c t) = false).
        { cbn [startsWith]. by apply Ascii.eqb_neq in Hopen as ->. }
        assert (H2 : startsWith ")" (String c t) = false).
        { cbn [startsWith]. by apply Ascii.eqb_neq in Hclose as ->. }
        rewrite (nextIndex_skip "(") by done.
        rewrite (nextIndex_skip ")") by done.
        apply (IH (S pos)); [done | lia | lia | lia].
Qed.

(** The fuel that [range] gives its loop is enough: more fuel gives the
    same state after the loop. *)
Lemma range_fuel_enough str f :
  (String.length str < f)%nat ->
  let ai := indexOf str "(" 0 in
  let bi := indexOf str ")" (ai + 1) in
  range_loop f "(" ")" str ai bi ai [] (len str) None None =
  range_loop (S (String.length str)) "(" ")" str ai bi ai [] (len str) None None.
Proof.
  intros Hf ai bi.
  destruct (Z.lt_ge_cases ai 0) as [Hneg | Hpos].
  { by rewrite !range_loop_exit by done. }
  destruct f as [|f]; [lia |].
  rewrite !range_loop_open by done. cbv zeta.
  assert (Hai : exists k, ai = Z.of_nat k /\ (k < String.length str)%nat).
  { subst ai. rewrite indexOf_0 in *.
    destruct (find "(" str) as [k|] eqn:Hk; [| lia].
    exists k. split; [lia |]. by apply find_open_bound. }
  destruct Hai as (k & Hk & Hlt). rewrite Hk.
  replace (Z.of_nat k + 1) with (Z.of_nat (S k)) by lia.
  assert (Hbi : bi = nextIndex ")" (S k) (sdrop (S k) str)).
  { unfold bi. rewrite Hk. replace (Z.of_nat k + 1) with (Z.of_nat (S k)) by lia.
    apply indexOf_next. lia. }
  rewrite Hbi, indexOf_next by lia.
  apply (range_loop_fuel str (sdrop (S k) str) (S k)); [done | lia | |].
  - rewrite length_sdrop. lia.
  - rewrite length_sdrop. lia.
Qed.

Lemma closes_nested d s post :
  nested d s = true -> closes (S d) (s +:+ ")" +:+ post) = Some (String.length s).
Proof.
  revert d. induction s as [|c s IH]; intros d; cbn [nested].
  - intros ->%Nat.eqb_eq. done.
  - rewrite append_cons. cbn [closes String.length].
    destruct (Ascii.eqb "(" c).
    + intros H. by rewrite (IH _ H).
    + destruct (Ascii.eqb ")" c).
      * destruct d as [|d]; [done |]. intros H. by rewrite (IH _ H).
      * intros H. by rewrite (IH _ H).
Qed.

Lemma closes_find d t k : closes d t = Some k -> exists j, find ")" t = Some j.
Proof.
  revert d k. induction t as [|c t IH]; intros d k; cbn [closes find startsWith]; [done |].
  destruct (Ascii.eqb ")" c) eqn:Hc; [eauto |].
  destruct (Ascii.eqb "(" c).
  - destruct (closes (S d) t) as [k'|] eqn:Hk; [| done].
    destruct (IH _ _ Hk) as [j ->]. eauto.
  - destruct (closes d t) as [k'|] eqn:Hk; [| done].
    destruct (IH _ _ Hk) as [j ->]. eauto.
Qed.

(** With [begs] and [beg0] open and the parenthesis that closes [beg0] at
    offset [k] of what is left of the text, the loop ends with the pair of
    [beg0] and that position. *)
Lemma range_loop_closes str t :
  forall pos begs beg0 l r fuel k,
    sdrop pos str = t -> (pos <= String.length str)%nat ->
    closes (length (begs ++ [beg0])) t = Some k ->
    (String.length t < fuel)%nat ->
    let ai := nextIndex "(" pos t in
    let bi := nextIndex ")" pos t in
    exists l' r',
      range_loop fuel "(" ")" str ai bi (cursor ai bi) (begs ++ [beg0]) l r None =
        ([], l', r', Some (beg0, Some (Z.of_nat (pos + k)))).
Proof.
  induction t as [|c t IH]; intros pos begs beg0 l r fuel k Ht Hpos Hk Hfuel; [done |].
  assert (Hlen : (pos + String.length (String c t) = String.length str)%nat)
    by (by apply sdrop_length).
  cbn [String.length] in *.
  pose proof (sdrop_S _ _ _ _ Ht) as Ht'.
  destruct fuel as [|fuel]; [lia |].
  cbn [closes] in Hk.
  destruct (Ascii.eqb_spec "(" c) as [<- | Hopen].
  - destruct (closes (S (length (begs ++ [beg0]))) t) as [k'|] eqn:Hk'; [| done].
    injection Hk as <-.
    rewrite (nextIndex_here "(") by done.
    rewrite (nextIndex_skip ")") by done. cbv zeta.
    destruct (closes_find _ _ _ Hk') as [j Hj].
    assert (Hb : nextIndex ")" (S pos) t = Z.of_nat (S pos + j)).
    { unfold nextIndex. by rewrite Hj. }
    unfold cursor.
    replace (Z.of_nat pos <? nextIndex ")" (S pos) t) with true
      by (symmetry; apply Z.ltb_lt; lia).
    nonneg pos.
    cbn [andb]. rewrite range_loop_open by lia. cbv zeta.
    advance pos Ht'.
    replace (pos + S k')%nat with (S pos + k')%nat by lia.
    apply (IH (S pos) (Z.of_nat pos :: begs)); [done | lia | done | lia].
  - destruct (Ascii.eqb_spec ")" c) as [<- | Hclose].
    + rewrite (nextIndex_skip "(") by done.
      rewrite (nextIndex_here ")") by done. cbv zeta.
      assert (Hcur : cursor (nextIndex "(" (S pos) t) (Z.of_nat pos) = Z.of_nat pos).
      { unfold cursor.
        pose proof (nextIndex_range "(" (S pos) t) as [Ha | Ha].
        - rewrite Ha. by rewrite andb_false_r.
        - replace (nextIndex "(" (S pos) t <? Z.of_nat pos) with false
            by (symmetry; apply Z.ltb_ge; lia). done. }
      rewrite Hcur.
      assert (Hne : (Z.of_nat pos =? nextIndex "(" (S pos) t) = false).
      { apply Z.eqb_neq. pose proof (nextIndex_range "(" (S pos) t). lia. }
      cbn [range_loop].
      nonneg pos.
      cbn [andb negb bool_decide decide_rel is_Some_dec]. rewrite Hne.
      destruct begs as [|beg begs].
      * cbn [app length] in *. injection Hk as <-.
        rewrite range_loop_done. replace (pos + 0)%nat with pos by lia. eauto.
      * assert (Hl : length (begs ++ [beg0]) = S (length begs))
          by (rewrite length_app; cbn; lia).
        cbn [app length] in Hk. rewrite Hl in Hk.
        destruct (closes (S (length begs)) t) as [k'|] eqn:Hk'; [| done].
        injection Hk as <-. rewrite <- Hl in Hk'.
        advance pos Ht'.
        replace (pos + S k')%nat with (S pos + k')%nat by lia.
        destruct begs as [|b2 begs]; cbn [app hd_error tl].
        -- destruct (beg <? l); (apply (IH (S pos) []); [done | lia | done | lia]).
        -- destruct (beg <? l);
             (apply (IH (S pos) (b2 :: begs)); [done | lia | done | lia]).
    + assert (H1 : startsWith "(" (String c t) = false).
      { cbn [startsWith]. by apply Ascii.eqb_neq in Hopen as ->. }
      assert (H2 : startsWith ")" (String c t) = false).
      { cbn [startsWith]. by apply Ascii.eqb_neq in Hclose as ->. }
      destruct (closes (length (begs ++ [beg0])) t) as [k'|] eqn:Hk'; [| done].
      injection Hk as <-.
      rewrite (nextIndex_skip "(") by done.
      rewrite (nextIndex_skip ")") by done.
      replace (pos + S k')%nat with (S pos + k')%nat by lia.
      apply (IH (S pos) begs); [done | lia | done | lia].
Qed.

Lemma nested_plain d a b :
  all_chars no_paren a = true -> nested d (a +:+ b) = nested d b.
Proof.
  induction a as [|c a IH]; [done |]. cbn [all_chars].
  intros [[Ho Hc]%andb_prop Ha]%andb_prop. rewrite append_cons. cbn [nested].
  apply negb_true_iff in Ho, Hc. rewrite Ho, Hc. by apply IH.
Qed.

(** The first balanced pair of a reference with a balanced body is the
    pair of the reference, and the body is what [balanced] reports. *)
Lemma balanced_var ref :
  nested 0 ref = true ->
  balanced "(" ")" ("var(" +:+ ref +:+ ")") =
    Some {| start := 3; end_ := Some (4 + len ref); pre := "var"; body := ref;
            post := "" |}.
Proof.
  intros Href.
  pose proof (closes_nested 0 ref "" Href) as Hclose.
  change (ref +:+ ")" +:+ "") with (ref +:+ ")") in Hclose.
  unfold balanced, range.
  set (str := "var(" +:+ ref +:+ ")").
  assert (Hlen : String.length str = (5 + String.length ref)%nat).
  { unfold str. rewrite !length_append. simpl. lia. }
  assert (Hd4 : sdrop 4 str = ref +:+ ")") by done.
  assert (Hai : indexOf str "(" 0 = 3) by done.
  rewrite Hai.
  change (3 + 1) with (Z.of_nat 4). rewrite indexOf_next, Hd4 by lia.
  destruct (closes_find _ _ _ Hclose) as [j Hj].
  assert (Hb : nextIndex ")" 4 (ref +:+ ")") = Z.of_nat (4 + j))
    by (unfold nextIndex; by rewrite Hj).
  replace ((0 <=? 3) && (0 <? nextIndex ")" 4 (ref +:+ ")"))) with true
    by (symmetry; apply andb_true_intro; split; [done | apply Z.ltb_lt; lia]).
  rewrite (range_loop_open _ _ _ _ 3) by lia. cbv zeta.
  change (3 + 1) with (Z.of_nat 4). rewrite indexOf_next, Hd4 by lia.
  destruct (range_loop_closes str (ref +:+ ")") 4 [] 3 (len str) None
              (String.length str) (String.length ref))
    as (l' & r' & Hloop); [done | lia | done | rewrite Hlen, length_append; cbn; lia |].
  cbv zeta in Hloop. unfold cursor in Hloop. cbn [app] in Hloop. rewrite Hloop.
  cbv [default from_option id]. unfold slice, substring.
  f_equal. f_equal.
  - unfold len. do 2 f_equal. lia.
  - replace (Z.to_nat (Z.of_nat (4 + String.length ref) - (3 + len "(")))
      with (String.length ref) by (unfold len; simpl; lia).
    change (Z.to_nat (3 + len "(")) with 4%nat.
    rewrite Hd4. apply stake_app.
  - replace (Z.to_nat (Z.of_nat (4 + String.length ref) + len ")"))
      with (String.length str) by (rewrite Hlen; unfold len; simpl; lia).
    apply sdrop_all.
Qed.

(** ** A reference that is the whole value *)

Lemma nested_name name : all_chars is_name_char name = true -> nested 0 name = true.
Proof.
  intros Hn. pose proof (nested_plain 0 name "") as H.
  rewrite append_empty_r in H. apply H.
  revert Hn. apply all_chars_impl, name_no_paren.
Qed.

Lemma is_name_inv name :
  is_name name = true -> truthy name = true /\ all_chars is_name_char name = true.
Proof. intros [Hp Hn]%andb_prop. split; [by destruct name | done]. Qed.

Lemma RE_VAR_at_lone name :
  is_name name = true -> RE_VAR_at name = Some (name, None, "").
Proof.
  intros [Ht Hn]%is_name_inv. unfold RE_VAR_at.
  rewrite (span_all _ _ Hn), Ht. done.
Qed.

Lemma RE_VAR_at_fallback name ws1 ws2 fb :
  is_name name = true ->
  all_chars is_space ws1 = true -> all_chars is_space ws2 = true ->
  is_fallback fb = true ->
  RE_VAR_at (name +:+ ws1 +:+ "," +:+ ws2 +:+ fb) = Some (name, Some fb, "").
Proof.
  intros [Ht Hn]%is_name_inv H1 H2 [[[Hfb Hdot]%andb_prop Hhd]%andb_prop _]%andb_prop.
  unfold RE_VAR_at.
  rewrite (span_app _ name), Ht; [| done |].
  2:{ apply (head_outside_app _ is_space); [apply space_not_name | done | done]. }
  rewrite (span_app _ ws1) by done. cbn [snd].
  rewrite append_cons, append_nil.
  rewrite (span_app _ ws2) by done. cbn [snd].
  by rewrite (span_all is_dot fb), Hfb.
Qed.

Lemma RE_VAR_replace_at fn s name fallback rest :
  RE_VAR_at s = Some (name, fallback, rest) ->
  RE_VAR_replace fn s = bind (fn name fallback) (fun r => ret (ofOption r +:+ rest)).
Proof.
  intros H. destruct s as [|c s]; [by vm_compute in H |].
  cbn [RE_VAR_replace]. by rewrite H.
Qed.

(** A call on a value that is one reference with a balanced body: the body
    goes through [RE_VAR] and the result is the new value. *)
Lemma substituteVar_ref ref map :
  truthy ref = true -> nested 0 ref = true ->
  substituteVar ("var(" +:+ ref +:+ ")") map = RE_VAR_replace (replaceVar map) ref.
Proof.
  intros Ht Href. unfold substituteVar.
  change (indexOf ("var(" +:+ ref +:+ ")") "var(" 0) with 0.
  change (substring ("var(" +:+ ref +:+ ")") 0) with ("var(" +:+ ref +:+ ")").
  rewrite (balanced_var _ Href). cbn [body].
  unfold truthy in Ht. apply negb_true_iff in Ht. rewrite Ht.
  rewrite bool_decide_eq_true_2 by eauto. cbn [when negb].
  rewrite !bind_ret_l.
  change (VAR_FUNC_IDENTIFIER +:+ "(" +:+ ref +:+ ")") with ("var(" +:+ ref +:+ ")").
  rewrite <- (bind_ret_r (RE_VAR_replace (replaceVar map) ref)) at 2.
  apply bind_ext. intros r. by rewrite join_split_self.
Qed.

Lemma substituteVar_lone name map :
  is_name name = true ->
  substituteVar ("var(" +:+ name +:+ ")") map = lookupVar map name.
Proof.
  intros Hn. pose proof Hn as [Ht Hc]%is_name_inv.
  rewrite substituteVar_ref; [| done | by apply nested_name].
  rewrite (RE_VAR_replace_at _ _ _ _ _ (RE_VAR_at_lone _ Hn)).
  unfold replaceVar, lookupVar.
  destruct (map !! name) as [v|]; simpl.
  - destruct (truthy v); simpl; by rewrite ?append_empty_r.
  - done.
Qed.

Lemma substituteVar_fallback name ws1 ws2 fb map :
  is_name name = true ->
  all_chars is_space ws1 = true -> all_chars is_space ws2 = true ->
  is_fallback fb = true ->
  substituteVar ("var(" +:+ name +:+ ws1 +:+ "," +:+ ws2 +:+ fb +:+ ")") map =
    ret (match map !! name with
         | Some v => if truthy v then v else fb
         | None => fb
         end).
Proof.
  intros Hn H1 H2 Hfb.
  pose proof Hn as [Ht Hc]%is_name_inv.
  pose proof Hfb as [[[Hft Hfc]%andb_prop Hfh]%andb_prop Hfn]%andb_prop.
  replace ("var(" +:+ name +:+ ws1 +:+ "," +:+ ws2 +:+ fb +:+ ")")
    with ("var(" +:+ (name +:+ ws1 +:+ "," +:+ ws2 +:+ fb) +:+ ")")
    by (by rewrite !append_assoc).
  rewrite substituteVar_ref.
  - rewrite (RE_VAR_replace_at _ _ _ _ _ (RE_VAR_at_fallback _ _ _ _ Hn H1 H2 Hfb)).
    unfold replaceVar. destruct (map !! name) as [v|]; simpl; rewrite Hft; simpl.
    + destruct (truthy v); simpl; by rewrite ?append_empty_r.
    + by rewrite append_empty_r.
  - destruct name; [done | done].
  - rewrite nested_plain by (revert Hc; apply all_chars_impl, name_no_paren).
    rewrite nested_plain by (revert H1; apply all_chars_impl, space_no_paren).
    rewrite append_cons, append_nil. cbn [nested]. 
    change (Ascii.eqb "(" ",") with false. change (Ascii.eqb ")" ",") with false.
    cbv iota.
    by rewrite nested_plain by (revert H2; apply all_chars_impl, space_no_paren).
Qed.

(** ** The recursion of [resolveValue] *)

Lemma resolveValue_S fuel value map :
  resolveValue (S fuel) value map =
    bind (substituteVar value map) (fun value' =>
      if negb (indexOf value' VAR_FUNC_IDENTIFIER 0 =? -1)
      then resolveValue fuel value' map else ret value').
Proof. reflexivity. Qed.

(** More fuel does not change the outcome of a call that has ended. *)
Lemma resolveValue_more fuel value map :
  snd (resolveValue fuel value map) <> Diverged ->
  resolveValue (S fuel) value map = resolveValue fuel value map.
Proof.
  revert value. induction fuel as [|fuel IH]; intros value Hend; [done |].
  rewrite (resolveValue_S (S fuel)), (resolveValue_S fuel) in *.
  destruct (substituteVar value map) as [w [v| |]]; simpl in *; [| done | done].
  destruct (negb (indexOf v VAR_FUNC_IDENTIFIER 0 =? -1)); [| done].
  rewrite IH; [done |].
  destruct (resolveValue fuel v map) as [w' r]. done.
Qed.

Lemma resolveValue_mono fuel fuel' value map :
  (fuel <= fuel')%nat ->
  snd (resolveValue fuel value map) <> Diverged ->
  resolveValue fuel' value map = resolveValue fuel value map.
Proof.
  intros Hle Hend. induction Hle as [|n Hle IH]; [done |].
  rewrite resolveValue_more; [done | by rewrite IH].
Qed.

(** A call that leaves a value without the token [var] returns it. *)
Lemma resolveValue_settled fuel value map value' :
  substituteVar value map = ret value' -> hasVarToken value' = false ->
  resolveValue (S fuel) value map = ret value'.
Proof.
  intros Hs Ht. rewrite resolveValue_S, Hs, bind_ret_l.
  unfold hasVarToken in Ht. by rewrite Ht.
Qed.

(** A lone reference to a name whose value is another reference. *)
Lemma resolveValue_link fuel name target map :
  is_name name = true -> map !! name = Some ("var(" +:+ target) ->
  resolveValue (S fuel) ("var(" +:+ name +:+ ")") map =
    resolveValue fuel ("var(" +:+ target) map.
Proof.
  intros Hn Hm. rewrite resolveValue_S, (substituteVar_lone _ _ Hn).
  unfold lookupVar. rewrite Hm.
  change (truthy ("var(" +:+ target)) with true. cbv iota. by rewrite bind_ret_l.
Qed.

(** A lone reference to a name whose value holds no [var]. *)
Lemma resolveValue_leaf fuel name value map :
  is_name name = true -> map !! name = Some value ->
  hasVarToken value = false ->
  resolveValue (S fuel) ("var(" +:+ name +:+ ")") map =
    (if truthy value then [] else [undefinedWarning name], Returned value).
Proof.
  intros Hn Hm Hv. rewrite resolveValue_S, (substituteVar_lone _ _ Hn).
  unfold lookupVar. rewrite Hm. unfold hasVarToken in Hv.
  destruct (truthy value); simpl; by rewrite Hv.
Qed.

(** A lone reference to a name without a value. *)
Lemma resolveValue_undefined fuel name map :
  is_name name = true -> map !! name = None ->
  resolveValue (S fuel) ("var(" +:+ name +:+ ")") map =
    ([undefinedWarning name], Returned "undefined").
Proof.
  intros Hn Hm. rewrite resolveValue_S, (substituteVar_lone _ _ Hn).
  unfold lookupVar. by rewrite Hm.
Qed.

(** On the cyclic definition every call makes the next one. *)
Lemma resolveValue_cycle fuel :
  resolveValue fuel "var(--a)" cyclicMap = ([], Diverged).
Proof.
  induction fuel as [|fuel IH]; [done |].
  rewrite resolveValue_S.
  replace (substituteVar "var(--a)" cyclicMap) with (ret (A:=string) "var(--a)")
    by (by vm_compute).
  rewrite bind_ret_l. exact IH.
Qed.

(** C1, counterexample.  With the definition [--a: var(--a)] the value
    [var(--a)] is replaced by itself in every call, the token remains, and
    the next call is made: no amount of fuel lets [resolveValue] return. *)
Lemma resolveValue_cycle_never_returns :
  cyclicMap !! "--a" = Some "var(--a)" /\
  ~ exists fuel ws r, resolveValue fuel "var(--a)" cyclicMap = (ws, Returned r).
Proof.
  split; [done |]. intros (fuel & ws & r & H).
  rewrite resolveValue_cycle in H. discriminate.
Qed.

(** C1, as amended.  [resolveValue] calls itself as long as the value still
    holds the token [var], without a test for progress.  For every chain
    [a: value; b: var(a); c: var(b)] whose end value holds no [var],
    resolving [var(c)] takes three calls and returns [value]; any greater
    depth of recursion allowed gives the same result.  (An empty [value]
    is returned with the warning that [a] is undefined.) *)
Theorem resolveValue_chain (a b c value : string) (map : gmap string string)
    (fuel : nat) :
  is_name a = true -> is_name b = true -> is_name c = true ->
  hasVarToken value = false ->
  map !! a = Some value ->
  map !! b = Some ("var(" +:+ a +:+ ")") ->
  map !! c = Some ("var(" +:+ b +:+ ")") ->
  (3 <= fuel)%nat ->
  resolveValue fuel ("var(" +:+ c +:+ ")") map =
    (if truthy value then [] else [undefinedWarning a], Returned value).
Proof.
  intros Ha Hb Hc Hv Hma Hmb Hmc Hfuel.
  assert (H3 : resolveValue 3 ("var(" +:+ c +:+ ")") map =
               (if truthy value then [] else [undefinedWarning a], Returned value)).
  { rewrite (resolveValue_link _ _ _ _ Hc Hmc), (resolveValue_link _ _ _ _ Hb Hmb).
    by apply resolveValue_leaf. }
  rewrite (resolveValue_mono 3 fuel) by (by rewrite ?H3). done.
Qed.

(** C1, witness: the chain of the specification with the value [10px]. *)
Lemma resolveValue_chain_witness :
  (is_name "--a" = true /\ hasVarToken "10px" = false /\ (3 <= 5)%nat) /\
  resolveValue 5 "var(--c)"
    (<["--a" := "10px"]> (<["--b" := "var(--a)"]> (<["--c" := "var(--b)"]> ∅)))
  = ([], Returned "10px").
Proof.
  split; [split; [reflexivity | split; [reflexivity | lia]] |].
  apply (resolveValue_chain "--a" "--b" "--c" "10px"); try reflexivity. lia.
Defined.

(** C2, counterexample.  The name [--x] is in the map, with the empty
    string as its value, and the fallback is substituted all the same. *)
Lemma fallback_used_for_empty_value :
  ({[ "--x" := "" ]} : gmap string string) !! "--x" = Some "" /\
  resolveValue 1 "var(--x, red)" {[ "--x" := "" ]} = ret "red".
Proof. split; by vm_compute. Qed.

(** C2, as amended.  For every reference [var(name, fallback)] (white space
    around the comma allowed; the fallback not empty, on one line, with
    balanced parentheses) and every map, the call substitutes the fallback
    if and only if the name has no value or the empty string as its value;
    when the name has a value that is not empty, that value is substituted
    and the fallback is not looked at.  When what is substituted holds no
    [var], it is the result of [resolveValue]. *)
Theorem fallback_iff_no_value (name ws1 ws2 fb : string) (map : gmap string string)
    (fuel : nat) :
  is_name name = true ->
  all_chars is_space ws1 = true -> all_chars is_space ws2 = true ->
  is_fallback fb = true ->
  let reference := "var(" +:+ name +:+ ws1 +:+ "," +:+ ws2 +:+ fb +:+ ")" in
  let substituted := match map !! name with
                     | Some v => if truthy v then v else fb
                     | None => fb
                     end in
  substituteVar reference map = ret substituted /\
  (hasVarToken substituted = false ->
   resolveValue (S fuel) reference map = ret substituted).
Proof.
  intros Hn H1 H2 Hfb reference substituted.
  pose proof (substituteVar_fallback name ws1 ws2 fb map Hn H1 H2 Hfb) as Hs.
  split; [exact Hs |]. intros Ht. by apply resolveValue_settled.
Qed.

(** C2, witness: a fallback with a function call, the name defined, then
    empty, then absent. *)
Lemma fallback_iff_no_value_witness :
  (is_name "--x" = true /\ is_fallback "calc(1px + 2px)" = true) /\
  resolveValue 1 "var(--x, calc(1px + 2px))" {[ "--x" := "3px" ]} = ret "3px" /\
  resolveValue 1 "var(--x, calc(1px + 2px))" {[ "--x" := "" ]} = ret "calc(1px + 2px)" /\
  resolveValue 1 "var(--x, calc(1px + 2px))" ∅ = ret "calc(1px + 2px)".
Proof.
  split; [split; reflexivity |].
  split; [| split].
  - refine (proj2 (fallback_iff_no_value "--x" "" " " "calc(1px + 2px)"
                     {[ "--x" := "3px" ]} 0 _ _ _ _) _); reflexivity.
  - refine (proj2 (fallback_iff_no_value "--x" "" " " "calc(1px + 2px)"
                     {[ "--x" := "" ]} 0 _ _ _ _) _); reflexivity.
  - refine (proj2 (fallback_iff_no_value "--x" "" " " "calc(1px + 2px)"
                     ∅ 0 _ _ _ _) _); reflexivity.
Defined.

(** ** The rule filter on a rule with declarations *)

Lemma nonzero_filter {A} (f : A -> bool) (l : list A) :
  nonzero (length (List.filter f l)) = existsb f l.
Proof.
  induction l as [|x l IH]; [done |]. cbn [List.filter existsb].
  destruct (f x); [done | apply IH].
Qed.

(** A rule with declarations stays, whole, exactly when one of its
    declarations passes the test. *)
Lemma filterVars_rule_decls type selectors declarations :
  filterVars_rule (RuleDecls type selectors declarations) =
    ret (if existsb isVarDecl declarations
         then Some (RuleDecls type selectors declarations) else None).
Proof. cbn [filterVars_rule]. by rewrite nonzero_filter. Qed.

(** What the two patterns of the filter match: a text that starts with
    two hyphens, and a text that starts with [var], whatever follows. *)
Lemma reVarProp_test_spec x : reVarProp_test x = startsWith "--" (ofOption x).
Proof. unfold reVarProp_test, test_start, reVarProp. cbn [matches]. apply andb_true_r. Qed.

Lemma reVarVal_test_spec x : reVarVal_test x = startsWith "var" (ofOption x).
Proof.
  unfold reVarVal_test, test_start, reVarVal. cbn [matches].
  destruct (startsWith "var" (ofOption x)); [| done]. cbn [andb].
  destruct (String.length (sdrop (String.length "var") (ofOption x))); [done |].
  apply orb_true_r.
Qed.

Lemma isVarDecl_spec property value :
  isVarDecl (Declaration property value)
    = startsWith "--" property || startsWith "var" value.
Proof. unfold isVarDecl. by rewrite reVarProp_test_spec, reVarVal_test_spec. Qed.

Lemma find_here needle s : find needle s = Some 0%nat -> startsWith needle s = true.
Proof.
  destruct s as [|c s]; cbn [find].
  - by destruct (startsWith needle "").
  - destruct (startsWith needle (String c s)); [done |].
    by destruct (find needle s).
Qed.

(** A property that the definition pass takes for a definition passes the
    test of the filter. *)
Lemma isVarProp_test property :
  isVarProp property = true -> reVarProp_test (Some property) = true.
Proof.
  intros [_ Hi]%andb_prop. apply Z.eqb_eq in Hi. rewrite indexOf_0 in Hi.
  rewrite reVarProp_test_spec. cbn [ofOption default from_option id]. apply find_here.
  unfold VAR_PROP_IDENTIFIER in Hi.
  destruct (find "--" property) as [[|k]|]; [done | lia | lia].
Qed.

(** A rule that holds a definition passes the filter whole. *)
Lemma filterVars_rule_definition type selectors declarations property value :
  In (Declaration property value) declarations -> isVarProp property = true ->
  filterVars_rule (RuleDecls type selectors declarations)
    = ret (Some (RuleDecls type selectors declarations)).
Proof.
  intros Hin Hp. rewrite filterVars_rule_decls.
  replace (existsb isVarDecl declarations) with true; [done |].
  symmetry. apply existsb_exists. exists (Declaration property value).
  split; [done |]. unfold isVarDecl. cbn [decl_property].
  by rewrite (isVarProp_test _ Hp).
Qed.

(** ** The variable map *)

Lemma writeAll_app map es es' : writeAll map (es ++ es') = writeAll (writeAll map es) es'.
Proof. apply foldl_app. Qed.

Lemma forEach_i_defineDecl ds i map idxs :
  (forEach_i defineDecl i ds (map, idxs)).1 = writeAll map (definitionsOf ds).
Proof.
  revert i map idxs. induction ds as [|d ds IH]; intros i map idxs; [done |].
  cbn [forEach_i]. destruct d as [prop value | c]; cbn [defineDecl].
  - unfold definitionsOf. cbn [omap list_omap]. fold (isVarProp prop).
    destruct (isVarProp prop); rewrite IH; done.
  - apply IH.
Qed.

Lemma defineRule_map preserve map r :
  (defineRule preserve map r).1 = writeAll map (rootDefinitions [r]).
Proof.
  unfold rootDefinitions. cbn [flat_map]. rewrite app_nil_r.
  destruct r as [type selectors ds | | |]; try done.
  unfold defineRule, isRootRule.
  destruct (String.eqb type "rule"); [| done]. cbn [negb andb].
  destruct (length selectors =? 1)%nat; [| done]. cbn [negb orb andb].
  destruct (bool_decide (selectors !! 0%nat = Some ":root")); [| done]. cbn [negb].
  rewrite <- (forEach_i_defineDecl ds 0 map []).
  by destruct (forEach_i defineDecl 0 ds (map, [])).
Qed.

Lemma defineRule_preserve map r : (defineRule true map r).2 = r.
Proof.
  destruct r as [type selectors ds | | |]; try done.
  unfold defineRule.
  destruct (negb (String.eqb type "rule")); [done |].
  destruct (negb (length selectors =? 1)%nat
            || negb (bool_decide (selectors !! 0%nat = Some ":root"))); [done |].
  by destruct (forEach_i defineDecl 0 ds (map, [])).
Qed.

(** The indices that the definition pass collects are those of the
    definitions. *)
Lemma forEach_i_indices ds i map idxs :
  (forEach_i defineDecl i ds (map, idxs)).2 = idxs ++ positions i ds.
Proof.
  revert i map idxs. induction ds as [|d ds IH]; intros i map idxs.
  - cbn. by rewrite app_nil_r.
  - cbn [forEach_i positions]. destruct d as [prop value | c]; cbn [defineDecl isDefinition].
    + fold (isVarProp prop). destruct (isVarProp prop); rewrite IH; [| done].
      by rewrite <- (assoc_L (++)).
    + by rewrite IH.
Qed.

(** Splicing them out from the last to the first leaves the other
    declarations, in order. *)
Lemma spliceOut_positions (pre ds : list decl) :
  spliceOut (positions (length pre) ds) (pre ++ ds)
    = pre ++ List.filter (fun d => negb (isDefinition d)) ds.
Proof.
  revert pre. induction ds as [|d ds IH]; intros pre; [done |].
  cbn [positions List.filter].
  assert (Hrest : spliceOut (positions (S (length pre)) ds) (pre ++ d :: ds)
                  = (pre ++ [d]) ++ List.filter (fun d => negb (isDefinition d)) ds).
  { rewrite <- (IH (pre ++ [d])). rewrite length_app, <- (assoc_L (++)). cbn.
    by rewrite Nat.add_1_r. }
  destruct (isDefinition d); cbn [negb app].
  - unfold spliceOut in *. cbn [foldr]. rewrite Hrest.
    rewrite <- (assoc_L (++)). cbn [app].
    by rewrite delete_middle.
  - rewrite Hrest. by rewrite <- (assoc_L (++)).
Qed.

(** Without preserve, the definition pass removes from a root rule its
    definitions and nothing else. *)
Lemma defineRule_remove map declarations :
  (defineRule false map (RuleDecls "rule" [":root"] declarations)).2
    = RuleDecls "rule" [":root"]
        (List.filter (fun d => negb (isDefinition d)) declarations).
Proof.
  unfold defineRule.
  change (negb (String.eqb "rule" "rule")) with false.
  change (negb (length [":root"] =? 1)%nat) with false.
  rewrite bool_decide_eq_true_2 by done. cbn [negb orb].
  pose proof (forEach_i_indices declarations 0 map []) as Hi.
  destruct (forEach_i defineDecl 0 declarations (map, [])) as [map' idxs].
  cbn [snd app] in *. subst. f_equal.
  apply (spliceOut_positions [] declarations).
Qed.

Lemma defineVars_map preserve map rules :
  (defineVars preserve map rules).1 = writeAll map (rootDefinitions rules).
Proof.
  revert map. induction rules as [|r rules IH]; intros map; [done |].
  cbn [defineVars].
  pose proof (defineRule_map preserve map r) as Hr.
  destruct (defineRule preserve map r) as [map1 r'].
  pose proof (IH map1) as Hrs.
  destruct (defineVars preserve map1 rules) as [map2 rules'].
  cbn [fst] in *. subst.
  change (r :: rules) with ([r] ++ rules).
  unfold rootDefinitions. rewrite flat_map_app. apply eq_sym, writeAll_app.
Qed.

Lemma defineVars_preserve map rules : (defineVars true map rules).2 = rules.
Proof.
  revert map. induction rules as [|r rules IH]; intros map; [done |].
  cbn [defineVars].
  pose proof (defineRule_preserve map r) as Hr.
  destruct (defineRule true map r) as [map1 r'].
  pose proof (IH map1) as Hrs.
  destruct (defineVars true map1 rules) as [map2 rules'].
  cbn [snd] in *. by subst.
Qed.

Lemma foldl_overrideVar vs map newDecls :
  foldl overrideVar (map, newDecls) vs =
    (writeAll map (overrideEntries vs),
     newDecls ++ ((fun e => Declaration e.1 e.2) <$> overrideEntries vs)).
Proof.
  revert map newDecls. induction vs as [|[key value] vs IH]; intros map newDecls.
  - cbn. by rewrite app_nil_r.
  - cbn [foldl overrideVar]. rewrite IH. cbn. by rewrite <- (assoc_L (++)).
Qed.

Lemma overrideVars_map s map rules :
  (overrideVars s map rules).1 = writeAll map (overrideEntries (variables s)).
Proof.
  unfold overrideVars. destruct (variables s) as [|e vs] eqn:Hvs; [done |].
  cbn [length nonzero Nat.eqb negb]. by rewrite foldl_overrideVar.
Qed.

Lemma overrideVars_rules s map map' rules :
  (overrideVars s map rules).2 = (overrideVars s map' rules).2.
Proof.
  unfold overrideVars. destruct (variables s) as [|e vs] eqn:Hvs; [done |].
  cbn [length nonzero Nat.eqb negb]. by rewrite !foldl_overrideVar.
Qed.


(** The transform is the filter, then the resolution pass run with one
    map, the one of the definition pass and the overrides. *)
Lemma transformVars_two_pass fuel s rules :
  transformVars fuel s rules =
    bind (if onlyVars s then filterVars rules else ret rules) (fun rules =>
      walkCss (resolveDecls fuel s (variableMap s rules))
        (overrideVars s ∅ (defineVars (preserve s) ∅ rules).2).2).
Proof.
  unfold transformVars. apply bind_ext. intros rules1.
  pose proof (defineVars_map (preserve s) ∅ rules1) as Hm.
  destruct (defineVars (preserve s) ∅ rules1) as [map1 rules2]. cbn [fst snd] in *.
  pose proof (overrideVars_map s map1 rules2) as Hm'.
  pose proof (overrideVars_rules s map1 ∅ rules2) as Hr.
  destruct (overrideVars s map1 rules2) as [map2 rules3]. cbn [fst snd] in *.
  subst. done.
Qed.

(** ** The loop over a declaration list *)

Lemma mapM_ext {A B} (f g : A -> M B) (l : list A) :
  (forall x, f x = g x) -> mapM f l = mapM g l.
Proof.
  intros H. induction l as [|x l IH]; [done |]. cbn [mapM]. by rewrite H, IH.
Qed.

(** The loop on the list [done_ ++ todo] with the index at the first
    declaration of [todo] and one turn for each declaration of [todo]: the
    declarations of [todo] are dealt with one by one, in order. *)
Lemma resolveDecls_loop_spec fuel s map (todo done_ : list decl) :
  resolveDecls_loop (length todo) fuel s map (length done_) (done_ ++ todo) =
    bind (mapM (resolveDecl fuel s map) todo) (fun dss => ret (done_ ++ concat dss)).
Proof.
  revert done_. induction todo as [|d todo IH]; intros done_.
  - cbn [length resolveDecls_loop mapM]. by rewrite bind_ret_l.
  - cbn [length resolveDecls_loop mapM].
    rewrite list_lookup_middle by done.
    assert (Hnext : forall (x : list decl) (n : nat),
      n = (length done_ + length x)%nat ->
      resolveDecls_loop (length todo) fuel s map n ((done_ ++ x) ++ todo) =
      bind (mapM (resolveDecl fuel s map) todo)
        (fun dss => ret (done_ ++ x ++ concat dss))).
    { intros x n ->. rewrite <- length_app, IH. apply bind_ext. intros dss.
      by rewrite <- (assoc_L (++)). }
    rewrite bind_assoc.
    destruct d as [property value | comment].
    + unfold resolveDecl at 1.
      destruct (negb (truthy value) || (indexOf value (VAR_FUNC_IDENTIFIER +:+ "(") 0 =? -1)).
      * rewrite bind_ret_l, bind_assoc.
        replace (done_ ++ Declaration property value :: todo)
          with ((done_ ++ [Declaration property value]) ++ todo)
          by (by rewrite <- (assoc_L (++))).
        rewrite (Hnext [Declaration property value] (length done_ + 1)%nat eq_refl).
        apply bind_ext. intros dss. by rewrite bind_ret_l.
      * rewrite bind_assoc. apply bind_ext. intros r.
        destruct (String.eqb r "undefined"); cbn [negb].
        -- rewrite bind_ret_l, bind_assoc.
           replace (done_ ++ Declaration property value :: todo)
             with ((done_ ++ [Declaration property value]) ++ todo)
             by (by rewrite <- (assoc_L (++))).
           rewrite (Hnext [Declaration property value] (length done_ + 1)%nat eq_refl).
           apply bind_ext. intros dss. by rewrite bind_ret_l.
        -- destruct (preserve s); cbn [negb].
           ++ rewrite bind_ret_l, bind_assoc.
              rewrite take_app_length, drop_app_length.
              replace (done_ ++ Declaration property r :: Declaration property value :: todo)
                with ((done_ ++ [Declaration property r; Declaration property value]) ++ todo)
                by (by rewrite <- (assoc_L (++))).
              rewrite (Hnext [Declaration property r; Declaration property value])
                by (simpl; lia).
              apply bind_ext. intros dss. by rewrite bind_ret_l.
           ++ rewrite bind_ret_l, bind_assoc.
              rewrite insert_app_r_alt, Nat.sub_diag by done. cbn [insert list_insert].
              replace (done_ ++ Declaration property r :: todo)
                with ((done_ ++ [Declaration property r]) ++ todo)
                by (by rewrite <- (assoc_L (++))).
              rewrite (Hnext [Declaration property r] (length done_ + 1)%nat eq_refl).
              apply bind_ext. intros dss. by rewrite bind_ret_l.
    + cbn [resolveDecl]. rewrite bind_ret_l, bind_assoc.
      replace (done_ ++ DeclComment comment :: todo)
        with ((done_ ++ [DeclComment comment]) ++ todo)
        by (by rewrite <- (assoc_L (++))).
      rewrite (Hnext [DeclComment comment] (length done_ + 1)%nat eq_refl).
      apply bind_ext. intros dss. by rewrite bind_ret_l.
Qed.

(** The callback of [walkCss] deals with each declaration of the list
    once, in order, and puts what it makes of them one after the other. *)
Lemma resolveDecls_spec fuel s map (ds : list decl) :
  resolveDecls fuel s map ds =
    bind (mapM (resolveDecl fuel s map) ds) (fun dss => ret (concat dss)).
Proof. apply (resolveDecls_loop_spec fuel s map ds []). Qed.

(** A list without a reference is handed back without a call of
    [resolveValue], whatever the fuel. *)
Lemma resolveDecls_skip fuel s map (ds : list decl) :
  Forall (fun d => match decl_value d with
                   | Some value => hasVarFunction value = false
                   | None => True
                   end) ds ->
  resolveDecls fuel s map ds = ret ds.
Proof.
  intros Hds. rewrite resolveDecls_spec.
  rewrite (mapM_ret _ (fun d => [d])).
  - by rewrite bind_ret_l, concat_singletons.
  - eapply Forall_impl; [exact Hds |]. intros [p v | c] Hd; [| done].
    cbn in Hd. unfold hasVarFunction in Hd. apply negb_false_iff in Hd.
    cbn [resolveDecl]. by rewrite Hd, orb_true_r.
Qed.

(** C3, counterexample.  With preserve set, the declaration with the
    resolved value comes before the original declaration, not after it. *)
Lemma preserve_puts_resolved_first :
  resolveDecls 1 defaults {[ "--c" := "1px" ]} [Declaration "width" "var(--c)"]
    = ret [Declaration "width" "1px"; Declaration "width" "var(--c)"] /\
  resolveDecls 1 defaults {[ "--c" := "1px" ]} [Declaration "width" "var(--c)"]
    <> ret [Declaration "width" "var(--c)"; Declaration "width" "1px"].
Proof. split; [by vm_compute | by vm_compute]. Qed.

(** C3, as amended.  With preserve set, no definition of the root scope is
    deleted: the filter keeps a rule that holds a definition whole, and the
    definition pass hands back the rules as they are.  The resolution pass
    leaves every declaration in its list unmodified; for each declaration
    whose value holds a reference and resolves to anything but the word
    [undefined], the new declaration with the resolved value is inserted
    immediately before it, so that the order is resolved, then original;
    the index is moved past the original, so that each declaration of the
    list is dealt with once and no inserted declaration is visited. *)
Theorem preserve_keeps_originals :
  (forall type selectors declarations property value,
     In (Declaration property value) declarations -> isVarProp property = true ->
     filterVars_rule (RuleDecls type selectors declarations)
       = ret (Some (RuleDecls type selectors declarations))) /\
  (forall map rules, (defineVars true map rules).2 = rules) /\
  (forall fuel (o : bool) vs map (ds : list decl),
     resolveDecls fuel {| onlyVars := o; preserve := true; variables := vs |} map ds =
       let* dss := mapM (fun d =>
                     match d with
                     | Declaration property value =>
                         if truthy value && hasVarFunction value then
                           let* resolved := resolveValue fuel value map in
                           ret (if String.eqb resolved "undefined" then [d]
                                else [Declaration property resolved; d])
                         else ret [d]
                     | DeclComment _ => ret [d]
                     end) ds in
       ret (concat dss)).
Proof.
  split; [apply filterVars_rule_definition |].
  split; [apply defineVars_preserve |].
  intros fuel o vs map ds. rewrite resolveDecls_spec. f_equal.
  apply mapM_ext. intros [property value | comment]; [| done].
  unfold resolveDecl, hasVarFunction. cbn [preserve].
  destruct (truthy value); cbn [negb orb andb]; [| done].
  destruct (indexOf value (VAR_FUNC_IDENTIFIER +:+ "(") 0 =? -1); cbn [negb]; [done |].
  apply bind_ext. intros r. by destruct (String.eqb r "undefined").
Qed.

(** C3, witness: the scenario of the specification, with the defaults.  The
    root rule and the original declaration are kept, and the resolved
    declaration stands before the original. *)
Lemma preserve_keeps_originals_witness :
  (In (Declaration "--c" "1px") [Declaration "--c" "1px"] /\ isVarProp "--c" = true) /\
  filterVars_rule (RuleDecls "rule" [":root"] [Declaration "--c" "1px"])
    = ret (Some (RuleDecls "rule" [":root"] [Declaration "--c" "1px"])) /\
  transformVars 1 defaults
    [RuleDecls "rule" [":root"] [Declaration "--c" "1px"];
     RuleDecls "rule" ["a"] [Declaration "width" "var(--c)"]]
  = ret [RuleDecls "rule" [":root"] [Declaration "--c" "1px"];
         RuleDecls "rule" ["a"]
           [Declaration "width" "1px"; Declaration "width" "var(--c)"]].
Proof.
  destruct preserve_keeps_originals as (Hfilter & _ & _).
  split; [split; [by left | reflexivity] |]. split.
  - apply (Hfilter "rule" [":root"] [Declaration "--c" "1px"] "--c" "1px");
      [by left | reflexivity].
  - by vm_compute.
Defined.

(** C10, counterexample.  The word [undefined] has nine code units, not
    eight: a resolved value of eight code units is never that word, and the
    declaration whose value resolves to the word is still left as it is. *)
Lemma undefined_has_nine_code_units :
  String.length "undefined" = 9%nat /\
  resolveValue 1 "var(--u)" ∅ = ([undefinedWarning "--u"], Returned "undefined") /\
  resolveDecls 1 {| onlyVars := true; preserve := false; variables := [] |} ∅
    [Declaration "width" "var(--u)"]
  = ([undefinedWarning "--u"], Returned [Declaration "width" "var(--u)"]).
Proof. split; [done | split; by vm_compute]. Qed.

(** C10, as amended.  The word [undefined] is the nine-code-unit result of
    resolving a lone reference to a name without a value.  For every
    declaration whose value holds a reference: when the resolved value is
    exactly that word, the declaration is left as it is, whether preserve
    is set or not; for every other resolved value the value is replaced in
    place (preserve not set) or the resolved declaration is inserted
    (preserve set).  A whole list is dealt with declaration by
    declaration. *)
Theorem undefined_leaves_declaration :
  String.length "undefined" = 9%nat /\
  (forall fuel name map,
     is_name name = true -> map !! name = None ->
     resolveValue (S fuel) ("var(" +:+ name +:+ ")") map
       = ([undefinedWarning name], Returned "undefined")) /\
  (forall fuel s map (ds : list decl),
     resolveDecls fuel s map ds =
       let* dss := mapM (resolveDecl fuel s map) ds in ret (concat dss)) /\
  (forall fuel s map property value ws resolved,
     truthy value = true -> hasVarFunction value = true ->
     resolveValue fuel value map = (ws, Returned resolved) ->
     resolveDecl fuel s map (Declaration property value) =
       (ws, Returned
              (if String.eqb resolved "undefined" then [Declaration property value]
               else if preserve s
                    then [Declaration property resolved; Declaration property value]
                    else [Declaration property resolved]))).
Proof.
  split; [done |]. split; [intros; by apply resolveValue_undefined |].
  split; [apply resolveDecls_spec |].
  intros fuel s map property value ws resolved Ht Hf Hr.
  unfold resolveDecl. unfold hasVarFunction in Hf. apply negb_true_iff in Hf.
  rewrite Ht, Hf, Hr. cbn [negb orb bind].
  destruct (String.eqb resolved "undefined"); [| destruct (preserve s)];
    cbn; by rewrite app_nil_r.
Qed.

(** C10, witness: a reference to a name without a value, and a reference
    to a defined name, with preserve not set. *)
Lemma undefined_leaves_declaration_witness :
  (is_name "--u" = true /\ hasVarFunction "var(--u)" = true) /\
  resolveValue 1 "var(--u)" ∅ = ([undefinedWarning "--u"], Returned "undefined") /\
  resolveDecl 1 {| onlyVars := true; preserve := false; variables := [] |} ∅
    (Declaration "width" "var(--u)")
  = ([undefinedWarning "--u"], Returned [Declaration "width" "var(--u)"]) /\
  resolveDecl 1 {| onlyVars := true; preserve := false; variables := [] |}
    {[ "--u" := "1px" ]} (Declaration "width" "var(--u)")
  = ([], Returned [Declaration "width" "1px"]).
Proof.
  destruct undefined_leaves_declaration as (_ & Hundef & _ & Hdecl).
  split; [split; reflexivity |]. split; [| split].
  - apply (Hundef 0%nat "--u" ∅); reflexivity.
  - apply (Hdecl 1%nat {| onlyVars := true; preserve := false; variables := [] |}
             ∅ "width" "var(--u)" [undefinedWarning "--u"] "undefined");
      reflexivity.
  - apply (Hdecl 1%nat {| onlyVars := true; preserve := false; variables := [] |}
             {[ "--u" := "1px" ]} "width" "var(--u)" [] "1px"); reflexivity.
Defined.

(** ** References across the tree *)

Lemma not_root_selectors (sel : list string) :
  sel <> [":root"] ->
  (length sel =? 1)%nat && bool_decide (sel !! 0%nat = Some ":root") = false.
Proof.
  intros Hsel. destruct sel as [|x [|y l]]; [done | | done].
  cbn. apply bool_decide_eq_false_2. intros [= ->]. done.
Qed.

Lemma isRootRule_other type sel ds :
  sel <> [":root"] -> isRootRule (RuleDecls type sel ds) = false.
Proof.
  intros Hsel. unfold isRootRule.
  by rewrite <- andb_assoc, not_root_selectors, andb_false_r.
Qed.

Lemma defineRule_other pr map type sel ds :
  sel <> [":root"] ->
  defineRule pr map (RuleDecls type sel ds) = (map, RuleDecls type sel ds).
Proof.
  intros Hsel. unfold defineRule.
  destruct (negb (String.eqb type "rule")); [done |].
  by rewrite <- negb_andb, not_root_selectors.
Qed.

Lemma is_name_property n :
  all_chars is_name_char n = true -> is_name ("--" +:+ n) = true.
Proof. intros Hn. unfold is_name. rewrite !append_cons, append_nil. cbn. done. Qed.




(** The scenario of the specification: the root rule defines [--x] as
    [1px], the override gives [2px], and the reference gets [2px]. *)
Example override_scenario :
  transformVars 1 {| onlyVars := false; preserve := false; variables := [("x", "2px")] |}
    [RuleDecls "rule" [":root"] [Declaration "--x" "1px"];
     RuleDecls "rule" ["a"] [Declaration "width" "var(--x)"]]
  = ret [RuleDecls "rule" [":root"] [];
         RuleDecls "rule" ["a"] [Declaration "width" "2px"]].
Proof. by vm_compute. Qed.

(** ** The rule filter *)

(** C4, the code at the failing input, and in general.  For a rule with
    declarations the filter only decides whether the rule stays: the
    filtered list [declArray] is measured and dropped, and a rule that stays
    keeps all its declarations, here [color: red] next to [--x: 1px]. *)
Theorem filterVars_keeps_unrelated_declarations :
  (forall type selectors declarations,
     filterVars_rule (RuleDecls type selectors declarations) =
       ret (if existsb isVarDecl declarations
            then Some (RuleDecls type selectors declarations) else None)) /\
  isVarDecl (Declaration "color" "red") = false /\
  filterVars [RuleDecls "rule" ["a"] [Declaration "color" "red"; Declaration "--x" "1px"]]
    = ret [RuleDecls "rule" ["a"] [Declaration "color" "red"; Declaration "--x" "1px"]].
Proof.
  split; [apply filterVars_rule_decls | split; by vm_compute].
Qed.

(** C5, the code at the failing inputs.  The test of the filter on a value
    is that the value starts with [var]: a reference inside a value, as in
    [calc(var(--w) * 2)], is not seen, and a keyframes rule or a font-face
    rule whose only reference is of that kind is dropped; a value that only
    starts with the letters [var] counts as a reference. *)
Theorem filterVars_misses_inner_reference :
  (forall property value,
     isVarDecl (Declaration property value)
       = startsWith "--" property || startsWith "var" value) /\
  hasVarFunction "calc(var(--w) * 2)" = true /\
  filterVars [RuleKeyframes "grow"
                [Keyframe ["to"] [Declaration "width" "calc(var(--w) * 2)"]]]
    = ret [] /\
  filterVars [RuleDecls "font-face" []
                [Declaration "font-family" "Sans";
                 Declaration "src" "url(var(--font))"]]
    = ret [] /\
  hasVarFunction "variable-sans" = false /\
  filterVars [RuleDecls "font-face" [] [Declaration "font-family" "variable-sans"]]
    = ret [RuleDecls "font-face" [] [Declaration "font-family" "variable-sans"]].
Proof. split; [apply isVarDecl_spec |]. repeat split; by vm_compute. Qed.

(** C6, the code at the failing input.  At the top level a rule without
    declarations, keyframes or nested rules passes the filter.  Among the
    nested rules of a container it passes the recursive filter too, and
    then the second filter reads the length of its missing declarations:
    the call throws. *)
Theorem filterVars_throws_on_nested_comment :
  (forall type text, filterVars [RuleOther type text] = ret [RuleOther type text]) /\
  (forall type prelude type' text selectors declarations,
     filterVars [RuleNested type prelude
                   [RuleOther type' text; RuleDecls "rule" selectors declarations]]
       = throw TypeError) /\
  filterVars [RuleNested "media" "screen"
                [RuleOther "comment" " note ";
                 RuleDecls "rule" ["a"] [Declaration "--x" "1px"]]]
    = throw TypeError.
Proof.
  split; [done |]. split; [| by vm_compute].
  intros type prelude type' text selectors declarations.
  unfold filterVars. cbn [mapM filterVars_rule].
  by destruct (nonzero (length (List.filter isVarDecl declarations))).
Qed.

(** ** The chunks *)

(** C9, the code at the failing inputs.  The chunks [a{}] and [b{}] fail
    the test and are replaced by markers.  After the first marker is
    replaced by three code units, the search for the next marker starts
    where the first marker ended in the longer text, which is past the
    start of the second marker: the loop ends and the second marker stays
    in the result.  A chunk with two dollar signs comes back with one. *)
Theorem short_chunk_hides_next_marker :
  test regex_cssVars "a{}" = false /\
  test regex_cssVars "b{}" = false /\
  coalesce ["a{}"; "b{}"; ":root{--x:1px}"]
    = marker 0 +:+ marker 1 +:+ ":root{--x:1px}" /\
  onComplete 3 id ["a{}"; "b{}"; ":root{--x:1px}"]
    = Returned ("a{}" +:+ marker 1 +:+ ":root{--x:1px}") /\
  onComplete 3 id ["a:after{content:'$$'}"; ":root{--x:1px}"]
    = Returned "a:after{content:'$'}:root{--x:1px}".
Proof. repeat split; by vm_compute. Qed.

(** ** Scenarios *)

(** A keyframes rule whose first step refers to a variable without a value:
    with the defaults the rule passes the filter whole, the reference gives
    one warning and resolves to the word [undefined], and both declarations
    are left as they are. *)
Example keyframes_scenario :
  transformVars 1 defaults
    [RuleKeyframes "k"
       [Keyframe ["from"] [Declaration "opacity" "var(--o)"];
        Keyframe ["to"] [Declaration "opacity" "1"]]]
  = ([undefinedWarning "--o"],
     Returned [RuleKeyframes "k"
                 [Keyframe ["from"] [Declaration "opacity" "var(--o)"];
                  Keyframe ["to"] [Declaration "opacity" "1"]]]).
Proof. by vm_compute. Qed.

(** References inside a value, a fallback with a function call, and a
    reference in a nested rule, without filter and without preserve. *)
Example nested_scenario :
  transformVars 3 {| onlyVars := false; preserve := false; variables := [] |}
    [RuleDecls "rule" [":root"]
       [Declaration "--gap" "4px"; Declaration "--pad" "var(--gap)"];
     RuleNested "media" "print"
       [RuleDecls "rule" ["p"]
          [DeclComment " spacing ";
           Declaration "margin" "calc(var(--pad) * 2) var(--edge, max(1px, 2px))"]]]
  = ret [RuleDecls "rule" [":root"] [];
         RuleNested "media" "print"
           [RuleDecls "rule" ["p"]
              [DeclComment " spacing ";
               Declaration "margin" "calc(4px * 2) max(1px, 2px)"]]].
Proof. by vm_compute. Qed.

(** A value whose reference is not closed: the read of the body of a
    missing pair throws. *)
Example unclosed_reference : resolveValue 1 "var(--a" ∅ = throw TypeError.
Proof. by vm_compute. Qed.

(** * Further properties

    Properties of the same code that the specification does not state:
    error and edge behaviour, invariants, and how the passes compose. *)

(** ** Strings and the monad, continued *)

Lemma sdrop_sdrop n m s : sdrop n (sdrop m s) = sdrop (m + n) s.
Proof.
  revert s. induction m as [|m IH]; intros s; [done |].
  destruct s as [|c s]; cbn; [by destruct n | apply IH].
Qed.

Lemma find_sdrop_le p k s j :
  find p (sdrop k s) = Some j -> exists i, find p s = Some i /\ (i <= k + j)%nat.
Proof.
  revert s. induction k as [|k IH]; intros s H.
  - exists j. split; [done | lia].
  - destruct s as [|c s].
    + exists j. split; [done | lia].
    + cbn [sdrop] in H. apply IH in H as (i & Hi & Hle).
      cbn [find]. destruct (startsWith p (String c s)).
      * exists 0%nat. split; [done | lia].
      * exists (S i). rewrite Hi. split; [done | lia].
Qed.

Lemma find_startsWith p s k : find p s = Some k -> startsWith p (sdrop k s) = true.
Proof.
  revert k. induction s as [|c s IH]; intros k; cbn [find].
  - destruct (startsWith p "") eqn:E; [by intros [= <-] | done].
  - destruct (startsWith p (String c s)) eqn:E; [by intros [= <-] |].
    destruct (find p s) as [j|]; [| done]. intros [= <-]. by apply IH.
Qed.

Lemma startsWith_split p s : startsWith p s = true -> s = p +:+ sdrop (String.length p) s.
Proof.
  revert s. induction p as [|a p IH]; intros s; [done |].
  destruct s as [|c s]; [done |]. cbn [startsWith].
  destruct (Ascii.eqb a c) eqn:E; [| done]. apply Ascii.eqb_eq in E as ->.
  intros H. rewrite append_cons. cbn [String.length sdrop]. f_equal. by apply IH.
Qed.

Lemma find_none_startsWith p s : find p s = None -> startsWith p s = false.
Proof. destruct s; cbn [find]; by destruct (startsWith p _). Qed.

Lemma find_none_tail p c s : find p (String c s) = None -> find p s = None.
Proof. cbn [find]. destruct (startsWith p (String c s)); [done |]. by destruct (find p s). Qed.

Lemma find_none_sdrop p k s : find p s = None -> find p (sdrop k s) = None.
Proof.
  intros H. destruct (find p (sdrop k s)) as [j|] eqn:E; [| done].
  apply find_sdrop_le in E as (i & Hi & _). congruence.
Qed.

Lemma find_none_prefix p a b : find p (a +:+ b) = None -> find p a = None.
Proof.
  induction a as [|c a IH].
  - rewrite append_nil. intros H. apply find_none_startsWith in H.
    cbn [find]. destruct (startsWith p "") eqn:E; [| done].
    destruct p; [by destruct b | done].
  - rewrite append_cons. intros H. pose proof (find_none_startsWith _ _ H) as Hs.
    apply find_none_tail in H. cbn [find]. rewrite (IH H).
    destruct (startsWith p (String c a)) eqn:E; [| done].
    pose proof (startsWith_split _ _ E) as Hsp.
    rewrite <- append_cons, Hsp, append_assoc, startsWith_app in Hs. done.
Qed.

Lemma find_first p s k :
  (forall n, (n < k)%nat -> startsWith p (sdrop n s) = false) ->
  startsWith p (sdrop k s) = true -> find p s = Some k.
Proof.
  revert s. induction k as [|k IH]; intros s Hb Hk.
  - cbn [sdrop] in Hk. destruct s; cbn [find]; by rewrite Hk.
  - destruct s as [|c s].
    + cbn [sdrop] in Hk. specialize (Hb 0%nat ltac:(lia)). cbn [sdrop] in Hb. congruence.
    + cbn [find]. pose proof (Hb 0%nat ltac:(lia)) as H0. cbn [sdrop] in H0.
      rewrite H0, (IH s); [done | | done].
      intros n Hn. apply (Hb (S n)). lia.
Qed.

Lemma find_extend p q s k :
  find p s = Some k -> startsWith (p +:+ q) (sdrop k s) = true ->
  find (p +:+ q) s = Some k.
Proof.
  revert k. induction s as [|c s IH]; intros k Hk Hs.
  - cbn [find] in *. destruct (startsWith p "") eqn:E; [| done].
    injection Hk as <-. cbn [sdrop] in Hs. by rewrite Hs.
  - cbn [find] in *. destruct (startsWith p (String c s)) eqn:E.
    + injection Hk as <-. cbn [sdrop] in Hs. by rewrite Hs.
    + destruct (find p s) as [j|] eqn:Ej; [| done]. injection Hk as <-.
      destruct (startsWith (p +:+ q) (String c s)) eqn:E'.
      * apply startsWith_shorter in E'. congruence.
      * by rewrite (IH j eq_refl Hs).
Qed.


Lemma sdrop_app_more a b n :
  sdrop (String.length a + n) (a +:+ b) = sdrop n b.
Proof. by rewrite <- sdrop_sdrop, sdrop_app. Qed.



(** A call that returns is made of calls that return. *)
Lemma bind_returned {A B} (m : M A) (k : A -> M B) ws b :
  bind m k = (ws, Returned b) ->
  exists w1 a w2, m = (w1, Returned a) /\ k a = (w2, Returned b) /\ ws = w1 ++ w2.
Proof.
  destruct m as [w1 [a | e |]]; cbn; [| done | done].
  destruct (k a) as [w2 o] eqn:E. intros [= <- ->]. by exists w1, a, w2.
Qed.

Lemma mapM_returned {A B} (f : A -> M B) (l : list A) ws ys :
  mapM f l = (ws, Returned ys) ->
  Forall2 (fun x y => exists w, f x = (w, Returned y)) l ys.
Proof.
  revert ws ys. induction l as [|x l IH]; intros ws ys; cbn [mapM].
  - intros [= _ <-]. constructor.
  - intros H. apply bind_returned in H as (w1 & y & w2 & Hy & H & _).
    apply bind_returned in H as (w3 & ys' & w4 & Hys & H & _).
    injection H as _ <-. constructor; [by eexists | by eapply IH].
Qed.

Lemma mapM_id {A} (f : A -> M A) (l : list A) :
  Forall (fun x => f x = ret x) l -> mapM f l = ret l.
Proof. intros H. rewrite (mapM_ret f id) by done. by rewrite list_fmap_id. Qed.

(** A property of the warnings of the parts is one of the whole. *)
Lemma bind_warnings {A B} (m : M A) (k : A -> M B) (P : string -> bool) :
  existsb P m.1 = false -> (forall a, existsb P (k a).1 = false) ->
  existsb P (bind m k).1 = false.
Proof.
  destruct m as [w [a | e |]]; cbn; intros Hw Hk; [| done | done].
  specialize (Hk a). destruct (k a) as [w' o]. cbn in *.
  by rewrite existsb_app, Hw, Hk.
Qed.

(** [l.filter(fn)] for a callback that returns on every element, and what
    is known of the result when the callback can throw. *)
Lemma omap_filter {A} (g : A -> bool) (l : list A) :
  omap id ((fun x => if g x then Some x else None) <$> l) = List.filter g l.
Proof. induction l as [|x l IH]; [done |]. cbn. destruct (g x); cbn; by rewrite IH. Qed.

Lemma omap_id_In {A} (l : list (option A)) x : In x (omap id l) -> In (Some x) l.
Proof.
  induction l as [|[y|] l IH]; cbn; [done | | by right; apply IH].
  intros [-> | H]; [by left | right; by apply IH].
Qed.

Lemma omap_id_Some {A} (l : list A) : omap id (Some <$> l) = l.
Proof. induction l as [|x l IH]; [done |]. cbn. by rewrite IH. Qed.

Lemma filter_all {A} (g : A -> bool) (l : list A) :
  forallb g l = true -> List.filter g l = l.
Proof.
  induction l as [|x l IH]; [done |]. cbn. intros [-> Hl]%andb_prop. by rewrite IH.
Qed.

Lemma filterM_ret {A} (fn : A -> M bool) (g : A -> bool) (l : list A) :
  Forall (fun x => fn x = ret (g x)) l -> filterM fn l = ret (List.filter g l).
Proof.
  intros H. unfold filterM.
  rewrite (mapM_ret _ (fun x => if g x then Some x else None)).
  - rewrite bind_ret_l. f_equal. f_equal.
    clear H. induction l as [|x l IH]; [done |]. cbn. destruct (g x); cbn; by rewrite IH.
  - eapply Forall_impl; [exact H |]. intros x ->. by rewrite bind_ret_l.
Qed.

Lemma filterM_returned {A} (fn : A -> M bool) (l : list A) ws l' :
  filterM fn l = (ws, Returned l') ->
  Forall (fun x => In x l /\ exists w, fn x = (w, Returned true)) l'.
Proof.
  unfold filterM. intros H.
  apply bind_returned in H as (w1 & keep & w2 & Hm & H & _).
  injection H as _ <-. apply mapM_returned in Hm.
  induction Hm as [|x y l keep [w Hx] _ IH]; [constructor |].
  apply bind_returned in Hx as (w3 & b & w4 & Hb & Hx & _).
  assert (Hin : forall z, In z l /\ (exists w, fn z = (w, Returned true)) ->
                          In z (x :: l) /\ exists w, fn z = (w, Returned true)).
  { intros z [? ?]. split; [by right | done]. }
  destruct b; injection Hx as _ <-; cbn.
  - constructor; [split; [by left | by eexists] |].
    eapply Forall_impl; [exact IH | exact Hin].
  - eapply Forall_impl; [exact IH | exact Hin].
Qed.

(** ** The names of the overrides *)

Lemma strip_hyphens_hyphen s : strip_hyphens (String "-" s) = strip_hyphens s.
Proof. unfold strip_hyphens. cbn. by destruct (span (char_is "-") s). Qed.

Lemma strip_hyphens_hyphens k s : strip_hyphens (hyphens k +:+ s) = strip_hyphens s.
Proof.
  induction k as [|k IH]; [done |].
  cbn [hyphens]. by rewrite append_cons, strip_hyphens_hyphen.
Qed.

Lemma strip_hyphens_head s : head_outside (char_is "-") (strip_hyphens s) = true.
Proof.
  unfold strip_hyphens. induction s as [|c s IH]; [done |].
  cbn [span]. destruct (char_is "-" c) eqn:E.
  - by destruct (span (char_is "-") s).
  - cbn [snd head_outside]. by rewrite E.
Qed.

Lemma strip_hyphens_fixed s :
  head_outside (char_is "-") s = true -> strip_hyphens s = s.
Proof.
  unfold strip_hyphens. destruct s as [|c s]; [done |].
  cbn [head_outside span]. by destruct (char_is "-" c).
Qed.

(** X1.  The name under which an override is written does not depend on
    the hyphens in front of its key: normalising a normalised name changes
    nothing, a key with any number of leading hyphens gives the name of the
    key without them, and the name starts with exactly two hyphens.  The
    same expression names the properties that [cssVars] sets in a browser
    with native support. *)
Theorem normalizeKey_idempotent (key : string) :
  normalizeKey (normalizeKey key) = normalizeKey key /\
  (forall k, normalizeKey (hyphens k +:+ key) = normalizeKey key) /\
  startsWith "--" (normalizeKey key) = true /\
  head_outside (char_is "-") (sdrop 2 (normalizeKey key)) = true.
Proof.
  split; [| split; [| split]].
  - unfold normalizeKey.
    change (strip_hyphens ("--" +:+ strip_hyphens key))
      with (strip_hyphens (hyphens 2 +:+ strip_hyphens key)).
    rewrite strip_hyphens_hyphens.
    by rewrite strip_hyphens_fixed by apply strip_hyphens_head.
  - intros k. unfold normalizeKey. by rewrite strip_hyphens_hyphens.
  - apply startsWith_app.
  - apply strip_hyphens_head.
Qed.

(** ** The balanced pair, continued *)

(** Once an opening parenthesis is on the stack, the loop of [range] ends
    with a result or with an opening that is still open. *)
Lemma range_loop_holds fuel a b str :
  forall ai bi i begs l r res,
    begs <> [] \/ is_Some res ->
    let st := range_loop fuel a b str ai bi i begs l r res in
    st.1.1.1 <> [] \/ is_Some st.2.
Proof.
  induction fuel as [|fuel IH]; intros ai bi i begs l r res H; [exact H |].
  cbn [range_loop].
  destruct ((0 <=? i) && negb (bool_decide (is_Some res))) eqn:C; [| exact H].
  destruct (i =? ai).
  - apply IH. by left.
  - destruct begs as [|b1 [|b2 begs]].
    + destruct H as [H | H]; [done |].
      apply andb_prop in C as [_ C]. by rewrite bool_decide_true in C.
    + apply IH. right. by eexists.
    + cbn [hd_error tl].
      destruct (if b1 <? l then (b1, Some bi) else (l, r)) as [l' r'].
      apply IH. by left.
Qed.

(** [range] finds a pair exactly when the text has an opening parenthesis
    and a closing one after the first opening one. *)
Lemma range_defined a b str :
  is_Some (range a b str) <->
  0 <= indexOf str a 0 /\ 0 < indexOf str b (indexOf str a 0 + 1).
Proof.
  unfold range.
  destruct (0 <=? indexOf str a 0) eqn:Ha; cbn [andb].
  2: { split; [by intros [? [=]] | intros [H _]]. apply Z.leb_gt in Ha. lia. }
  destruct (0 <? indexOf str b (indexOf str a 0 + 1)) eqn:Hb.
  2: { split; [by intros [? [=]] | intros [_ H]]. apply Z.ltb_ge in Hb. lia. }
  apply Z.leb_le in Ha. apply Z.ltb_lt in Hb. split; [done | intros _].
  rewrite range_loop_open by done. cbv zeta.
  match goal with |- context [range_loop ?f ?a ?b ?s ?ai ?bi ?i ?begs ?l ?r ?res] =>
    pose proof (range_loop_holds f a b s ai bi i begs l r res ltac:(by left)) as H;
    destruct (range_loop f a b s ai bi i begs l r res) as [[[begs' l'] r'] res']
  end.
  cbn in H. destruct begs' as [|b1 begs']; [| by eexists].
  by destruct H.
Qed.

(** A text has a pair when one of its suffixes has one. *)
Lemma range_suffix str n :
  is_Some (range "(" ")" (sdrop n str)) -> is_Some (range "(" ")" str).
Proof.
  rewrite !range_defined, !indexOf_0.
  destruct (find "(" (sdrop n str)) as [a'|] eqn:Ha'; [| lia].
  intros [_ Hb].
  pose proof (find_open_bound _ _ Ha') as Hlt.
  replace (Z.of_nat a' + 1) with (Z.of_nat (S a')) in Hb by lia.
  rewrite indexOf_from in Hb by lia.
  destruct (find ")" (sdrop (S a') (sdrop n str))) as [b'|] eqn:Hb'; [clear Hb | lia].
  apply find_sdrop_le in Ha' as (a & Ha & Hle). rewrite Ha.
  pose proof (find_open_bound _ _ Ha) as Hlt'.
  replace (Z.of_nat a + 1) with (Z.of_nat (S a)) by lia.
  rewrite indexOf_from by lia.
  rewrite sdrop_sdrop in Hb'.
  replace (n + S a')%nat with (S a + (n + a' - a))%nat in Hb' by lia.
  rewrite <- sdrop_sdrop in Hb'.
  apply find_sdrop_le in Hb' as (i & -> & _). lia.
Qed.

(** The pair of a reference with a balanced body, whatever follows the
    reference. *)
Lemma balanced_var_post ref post :
  nested 0 ref = true ->
  balanced "(" ")" ("var(" +:+ ref +:+ ")" +:+ post) =
    Some {| start := 3; end_ := Some (4 + len ref); pre := "var"; body := ref;
            post := post |}.
Proof.
  intros Href.
  pose proof (closes_nested 0 ref post Href) as Hclose.
  unfold balanced, range.
  set (str := "var(" +:+ ref +:+ ")" +:+ post).
  assert (Hlen : String.length str = (5 + String.length ref + String.length post)%nat).
  { unfold str. rewrite !length_append. simpl. lia. }
  assert (Hd4 : sdrop 4 str = ref +:+ ")" +:+ post) by done.
  assert (Hai : indexOf str "(" 0 = 3) by done.
  rewrite Hai.
  change (3 + 1) with (Z.of_nat 4). rewrite indexOf_next, Hd4 by lia.
  destruct (closes_find _ _ _ Hclose) as [j Hj].
  assert (Hb : nextIndex ")" 4 (ref +:+ ")" +:+ post) = Z.of_nat (4 + j))
    by (unfold nextIndex; by rewrite Hj).
  replace ((0 <=? 3) && (0 <? nextIndex ")" 4 (ref +:+ ")" +:+ post))) with true
    by (symmetry; apply andb_true_intro; split; [done | apply Z.ltb_lt; lia]).
  rewrite (range_loop_open _ _ _ _ 3) by lia. cbv zeta.
  change (3 + 1) with (Z.of_nat 4). rewrite indexOf_next, Hd4 by lia.
  destruct (range_loop_closes str (ref +:+ ")" +:+ post) 4 [] 3 (len str) None
              (String.length str) (String.length ref))
    as (l' & r' & Hloop);
    [done | lia | done | rewrite Hlen, !length_append; cbn; lia |].
  cbv zeta in Hloop. unfold cursor in Hloop. cbn [app] in Hloop. rewrite Hloop.
  cbv [default from_option id]. unfold slice, substring.
  f_equal. f_equal.
  - unfold len. do 2 f_equal. lia.
  - replace (Z.to_nat (Z.of_nat (4 + String.length ref) - (3 + len "(")))
      with (String.length ref) by (unfold len; simpl; lia).
    change (Z.to_nat (3 + len "(")) with 4%nat.
    rewrite Hd4. apply stake_app.
  - replace (Z.to_nat (Z.of_nat (4 + String.length ref) + len ")"))
      with (4 + (String.length ref + 1))%nat by (unfold len; simpl; lia).
    rewrite <- sdrop_sdrop, Hd4, <- sdrop_sdrop, sdrop_app. done.
Qed.

(** ** The value resolver, continued *)

Lemma hasVarToken_find s : hasVarToken s = false -> find "var" s = None.
Proof.
  unfold hasVarToken. rewrite indexOf_0. intros H%negb_false_iff%Z.eqb_eq.
  destruct (find _ _); [lia | done].
Qed.


Lemma resolveValue_no_var fuel value map ws resolved :
  resolveValue fuel value map = (ws, Returned resolved) ->
  hasVarToken resolved = false.
Proof.
  revert value ws. induction fuel as [|fuel IH]; intros value ws; [done |].
  rewrite resolveValue_S. intros H.
  apply bind_returned in H as (w1 & v' & w2 & _ & H & _).
  unfold hasVarToken.
  destruct (negb (indexOf v' VAR_FUNC_IDENTIFIER 0 =? -1)) eqn:E.
  - by apply IH in H.
  - injection H as _ <-. exact E.
Qed.

(** X2.  What [resolveValue] returns holds no [var]: the call returns
    only when the test that decides on the recursive call fails. *)
Theorem resolveValue_result_without_var fuel value map ws resolved :
  resolveValue fuel value map = (ws, Returned resolved) ->
  hasVarToken resolved = false.
Proof. apply resolveValue_no_var. Qed.

Lemma resolveValue_result_without_var_witness :
  resolveValue 2 "var(--a)" {[ "--a" := "var(--b, 1px)" ]} = ([], Returned "1px") /\
  hasVarToken "1px" = false.
Proof.
  split; [by vm_compute |].
  apply (resolveValue_result_without_var 2 "var(--a)" {[ "--a" := "var(--b, 1px)" ]} []).
  by vm_compute.
Defined.

Lemma replaceVar_returns map name fallback :
  exists ws r, replaceVar map name fallback = (ws, Returned r).
Proof.
  unfold replaceVar.
  destruct (falsy (map !! name) && falsy fallback);
    destruct (falsy (map !! name) && negb (falsy fallback)); cbn; eauto.
Qed.

Lemma RE_VAR_replace_returns map s :
  exists ws r, RE_VAR_replace (replaceVar map) s = (ws, Returned r).
Proof.
  induction s as [|c s (ws & r & IH)]; cbn [RE_VAR_replace].
  - destruct (RE_VAR_at "") as [[[name fb] rest]|]; [| by eexists _, _].
    destruct (replaceVar_returns map name fb) as (ws & r & ->). cbn. eauto.
  - destruct (RE_VAR_at (String c s)) as [[[name fb] rest]|].
    + destruct (replaceVar_returns map name fb) as (ws' & r' & ->). cbn. eauto.
    + rewrite IH. cbn. eauto.
Qed.

Lemma substituteVar_undefined_pair value map :
  range "(" ")" (substring value (indexOf value "var(" 0)) = None ->
  substituteVar value map = throw TypeError.
Proof. intros H. unfold substituteVar, balanced. by rewrite H. Qed.

Lemma substituteVar_defined_pair value map :
  is_Some (range "(" ")" (substring value (indexOf value "var(" 0))) ->
  exists ws r, substituteVar value map = (ws, Returned r).
Proof.
  intros [[r0 r1] H]. unfold substituteVar, balanced. rewrite H. cbn [body].
  match goal with |- context [RE_VAR_replace _ ?s] =>
    destruct (RE_VAR_replace_returns map s) as (ws & r & ->) end.
  destruct (negb _); destruct (String.eqb _ ""); cbn; eauto.
Qed.

Lemma reference_pair value k :
  find "var(" value = Some k ->
  is_Some (range "(" ")" (substring value (indexOf value "var(" 0))) <->
  is_Some (find ")" (sdrop (k + 4) value)).
Proof.
  intros Hk. rewrite indexOf_0, Hk. unfold substring. rewrite Nat2Z.id.
  pose proof (startsWith_split _ _ (find_startsWith _ _ _ Hk)) as Ht.
  rewrite <- sdrop_sdrop. cbn [String.length] in Ht.
  set (t := sdrop k value) in *. set (rest := sdrop 4 t) in *.
  rewrite range_defined, Ht.
  change (indexOf ("var(" +:+ rest) "(" 0) with 3.
  change (3 + 1) with (Z.of_nat 4).
  rewrite indexOf_from by (rewrite length_append; cbn; lia).
  change (sdrop 4 ("var(" +:+ rest)) with rest.
  destruct (find ")" rest) as [j|].
  - split; [by eexists | intros _; lia].
  - split; [lia | by intros [? [=]]].
Qed.

(** X3.  For a value whose first reference starts at position [k]: when
    no closing parenthesis follows the [var(] of that reference,
    [balanced] finds no pair in the rest of the value, the read of [body]
    throws and so does [resolveValue], without a warning; when one follows,
    the first call substitutes and goes on to the test of the recursion. *)
Theorem resolveValue_throws_iff_unclosed fuel value map k :
  find "var(" value = Some k ->
  (find ")" (sdrop (k + 4) value) = None ->
   resolveValue (S fuel) value map = throw TypeError) /\
  (is_Some (find ")" (sdrop (k + 4) value)) ->
   exists ws r, substituteVar value map = (ws, Returned r)).
Proof.
  intros Hk. pose proof (reference_pair value k Hk) as Hp. split; intros H.
  - rewrite resolveValue_S, substituteVar_undefined_pair; [done |].
    destruct (range _ _ _) eqn:E; [| done].
    destruct Hp as [Hp _]. rewrite H in Hp. destruct Hp as [? [=]]. by eexists.
  - apply substituteVar_defined_pair. by apply Hp.
Qed.

Lemma resolveValue_throws_iff_unclosed_witness :
  find "var(" "calc(var(--a + 1px" = Some 5%nat /\
  resolveValue 1 "calc(var(--a + 1px" ∅ = throw TypeError /\
  exists ws r, substituteVar "calc(var(--a) + 1px" ∅ = (ws, Returned r).
Proof.
  destruct (resolveValue_throws_iff_unclosed 0 "calc(var(--a + 1px" ∅ 5 eq_refl)
    as [Hthrow _].
  destruct (resolveValue_throws_iff_unclosed 0 "calc(var(--a) + 1px" ∅ 5 eq_refl)
    as [_ Hret].
  split; [reflexivity |]. split; [by apply Hthrow | apply Hret; by eexists].
Defined.

Lemma replaceVar_warnings map name fallback :
  existsb isMissingClosing (replaceVar map name fallback).1 = false.
Proof.
  unfold replaceVar.
  destruct (falsy (map !! name) && falsy fallback);
    destruct (falsy (map !! name) && negb (falsy fallback)); reflexivity.
Qed.

Lemma RE_VAR_replace_warnings map s :
  existsb isMissingClosing (RE_VAR_replace (replaceVar map) s).1 = false.
Proof.
  induction s as [|c s IH]; cbn [RE_VAR_replace].
  - destruct (RE_VAR_at "") as [[[name fb] rest]|]; [| done].
    apply bind_warnings; [apply replaceVar_warnings | done].
  - destruct (RE_VAR_at (String c s)) as [[[name fb] rest]|];
      (apply bind_warnings; [| done]); [apply replaceVar_warnings | apply IH].
Qed.

Lemma substituteVar_warnings value map :
  existsb isMissingClosing (substituteVar value map).1 = false.
Proof.
  unfold substituteVar.
  destruct (balanced "(" ")" (substring value _)) as [b|] eqn:E; [| done].
  assert (Hv : is_Some (balanced "(" ")" value)).
  { unfold balanced in *. 
    destruct (range "(" ")" (substring value _)) as [p|] eqn:Er; [| done].
    destruct (range_suffix value (Z.to_nat (indexOf value "var(" 0))) as [[r0 r1] ->];
      [unfold substring in Er; by rewrite Er | by eexists]. }
  rewrite bool_decide_true by done. cbn [negb when].
  apply bind_warnings; [done | intros _].
  apply bind_warnings; [by destruct (String.eqb _ _) | intros _].
  apply bind_warnings; [apply RE_VAR_replace_warnings | done].
Qed.

(** X4.  The warning about a missing closing parenthesis is never passed
    to [onWarning].  When the rest of the value from the first reference on
    has a pair, so has the whole value; when it has none, the call has
    thrown before the test. *)
Theorem missing_closing_never_warned :
  (forall value, isMissingClosing (missingClosingWarning value) = true) /\
  (forall value map, existsb isMissingClosing (substituteVar value map).1 = false) /\
  (forall fuel value map, existsb isMissingClosing (resolveValue fuel value map).1 = false).
Proof.
  split; [done |]. split; [apply substituteVar_warnings |].
  induction fuel as [|fuel IH]; intros value map; [done |].
  rewrite resolveValue_S. apply bind_warnings; [apply substituteVar_warnings |].
  intros v. by destruct (negb _).
Qed.

(** *** A reference inside a value *)

Local Ltac scan E :=
  cbn [startsWith] in E;
  repeat match type of E with
         | (if ?b then _ else _) = true => destruct b eqn:?; [| discriminate E]
         end.

Lemma before_reference pre q rest n :
  find "var(" pre = None -> (n < String.length pre)%nat ->
  startsWith ("var(" +:+ q) (sdrop n (pre +:+ "var(" +:+ rest)) = false.
Proof.
  revert n. induction pre as [|c pre IH]; intros n Hp Hn; [cbn in Hn; lia |].
  destruct n as [|n].
  - cbn [sdrop]. apply find_none_startsWith in Hp.
    destruct (startsWith ("var(" +:+ q) _) eqn:E; [| done].
    apply (startsWith_shorter "var(" q) in E.
    destruct pre as [|c2 [|c3 [|c4 pre]]]; rewrite ?append_cons, ?append_nil in E;
      scan E; try done.
    cbn [startsWith] in Hp.
    repeat match goal with H : Ascii.eqb _ _ = true |- _ => rewrite H in Hp; clear H end.
    done.
  - rewrite append_cons. cbn [sdrop].
    apply IH; [by eapply find_none_tail | cbn in Hn; lia].
Qed.

Lemma split_go_prefix f piece pre rest :
  (forall n, (n < String.length pre)%nat ->
             startsWith f (sdrop n (pre +:+ rest)) = false) ->
  split_go f 0 piece (pre +:+ rest) = split_go f 0 (piece +:+ pre) rest.
Proof.
  revert piece. induction pre as [|c pre IH]; intros piece H.
  - by rewrite append_nil, append_empty_r.
  - rewrite append_cons. cbn [split_go].
    pose proof (H 0%nat ltac:(cbn; lia)) as H0. cbn [sdrop] in H0.
    rewrite append_cons in H0. rewrite H0.
    rewrite IH.
    + by rewrite append_assoc.
    + intros n Hn. apply (H (S n)). cbn. lia.
Qed.

Lemma split_go_skip_app sep piece a rest :
  split_go sep (String.length a) piece (a +:+ rest) = split_go sep 0 piece rest.
Proof.
  induction a as [|c a IH]; [by rewrite append_nil |].
  rewrite append_cons. cbn [String.length split_go]. apply IH.
Qed.

Lemma split_go_at f piece rest :
  truthy f = true ->
  split_go f 0 piece (f +:+ rest) = piece :: split_go f 0 "" rest.
Proof.
  intros Hf. destruct f as [|c f]; [done |].
  rewrite append_cons. cbn [split_go].
  rewrite <- append_cons, startsWith_app. cbn [String.length Nat.sub].
  rewrite Nat.sub_0_r. by rewrite split_go_skip_app.
Qed.

Lemma split_go_nonempty sep skip piece s : split_go sep skip piece s <> [].
Proof.
  revert skip piece. induction s as [|c s IH]; intros skip piece; cbn [split_go]; [done |].
  destruct skip; [| apply IH]. destruct (startsWith sep (String c s)); [done | apply IH].
Qed.

Lemma join_cons sep p l : l <> [] -> join sep (p :: l) = p +:+ sep +:+ join sep l.
Proof. by destruct l. Qed.

Lemma split_reference pre ref post :
  find "var(" pre = None ->
  split (pre +:+ "var(" +:+ ref +:+ ")" +:+ post) ("var(" +:+ ref +:+ ")")
    = pre :: split post ("var(" +:+ ref +:+ ")").
Proof.
  intros Hp. unfold split.
  rewrite split_go_prefix.
  - rewrite append_nil.
    replace ("var(" +:+ ref +:+ ")" +:+ post) with (("var(" +:+ ref +:+ ")") +:+ post)
      by (by rewrite !append_assoc).
    by rewrite split_go_at.
  - intros n Hn. by apply (before_reference pre (ref +:+ ")")).
Qed.

Lemma split_absent s f : find f s = None -> split s f = [s].
Proof.
  intros Hs. unfold split. rewrite <- (append_empty_r s) at 1.
  rewrite split_go_prefix; [by rewrite append_nil |].
  intros n Hn. rewrite append_empty_r. by apply find_none_startsWith, find_none_sdrop.
Qed.

Lemma indexOf_reference pre rest :
  find "var(" pre = None ->
  indexOf (pre +:+ "var(" +:+ rest) "var(" 0 = Z.of_nat (String.length pre).
Proof.
  intros Hp. rewrite indexOf_0, (find_first _ _ (String.length pre)); [done | |].
  - intros n Hn. by apply (before_reference pre "").
  - rewrite sdrop_app. apply (startsWith_app "var(").
Qed.

Lemma substituteVar_in_context pre ref post map :
  find "var(" pre = None -> truthy ref = true -> nested 0 ref = true ->
  substituteVar (pre +:+ "var(" +:+ ref +:+ ")" +:+ post) map =
    bind (RE_VAR_replace (replaceVar map) ref) (fun r =>
      ret (pre +:+ r +:+ join r (split post ("var(" +:+ ref +:+ ")")))).
Proof.
  intros Hp Ht Href. unfold substituteVar.
  rewrite indexOf_reference by done. unfold substring. rewrite Nat2Z.id, sdrop_app.
  assert (Hv : is_Some (balanced "(" ")" (pre +:+ "var(" +:+ ref +:+ ")" +:+ post))).
  { unfold balanced.
    destruct (range_suffix (pre +:+ "var(" +:+ ref +:+ ")" +:+ post) (String.length pre))
      as [[r0 r1] ->]; [| by eexists].
    rewrite sdrop_app. pose proof (balanced_var_post ref post Href) as Hb.
    unfold balanced in Hb. destruct (range _ _ _); [by eexists | done]. }
  rewrite (balanced_var_post _ _ Href). cbn [body].
  rewrite bool_decide_true by done. cbn [negb when].
  unfold truthy in Ht. apply negb_true_iff in Ht. rewrite Ht. cbn [when].
  rewrite !bind_ret_l.
  change (VAR_FUNC_IDENTIFIER +:+ "(" +:+ ref +:+ ")") with ("var(" +:+ ref +:+ ")").
  apply bind_ext. intros r.
  rewrite split_reference by done.
  by rewrite join_cons by apply split_go_nonempty.
Qed.

Lemma substituteVar_reference pre name post map :
  find "var(" pre = None -> is_name name = true ->
  substituteVar (pre +:+ "var(" +:+ name +:+ ")" +:+ post) map =
    bind (lookupVar map name) (fun r =>
      ret (pre +:+ r +:+ join r (split post ("var(" +:+ name +:+ ")")))).
Proof.
  intros Hp Hn. pose proof Hn as [Ht Hc]%is_name_inv.
  rewrite substituteVar_in_context; [| done | done | by apply nested_name].
  rewrite (RE_VAR_replace_at _ _ _ _ _ (RE_VAR_at_lone _ Hn)).
  unfold replaceVar, lookupVar.
  destruct (map !! name) as [v|]; cbn [falsy].
  - destruct (truthy v); cbn; by rewrite ?append_empty_r, ?app_nil_r.
  - cbn. done.
Qed.

(** X5.  One call substitutes the first reference of the value, and every
    later occurrence of the same reference text with it: what precedes the
    first reference is kept, and the rest is split at the reference text and
    joined with what the map gives for the name. *)
Theorem substituteVar_replaces_every_occurrence pre name post map :
  find "var(" pre = None -> is_name name = true ->
  substituteVar (pre +:+ "var(" +:+ name +:+ ")" +:+ post) map =
    bind (lookupVar map name) (fun r =>
      ret (pre +:+ r +:+ join r (split post ("var(" +:+ name +:+ ")")))).
Proof. apply substituteVar_reference. Qed.

Lemma substituteVar_replaces_every_occurrence_witness :
  substituteVar "calc(var(--a) + var(--a) + var(--b))" {[ "--a" := "1px" ]}
  = ret "calc(1px + 1px + var(--b))".
Proof.
  exact (substituteVar_replaces_every_occurrence "calc(" "--a" " + var(--a) + var(--b))"
           {[ "--a" := "1px" ]} eq_refl eq_refl).
Defined.

Lemma resolveValue_lookup fuel pre name post map ws r :
  is_name name = true -> lookupVar map name = (ws, Returned r) ->
  hasVarToken (pre +:+ r +:+ post) = false ->
  resolveValue (S fuel) (pre +:+ "var(" +:+ name +:+ ")" +:+ post) map
    = (ws, Returned (pre +:+ r +:+ post)).
Proof.
  intros Hn Hl Hr. apply hasVarToken_find in Hr as Hfind.
  assert (Hpre : find "var(" pre = None).
  { apply (find_longer "var" "("). by eapply find_none_prefix. }
  assert (Hpost : find ("var(" +:+ name +:+ ")") post = None).
  { apply (find_longer "var" ("(" +:+ name +:+ ")")).
    rewrite <- append_assoc in Hfind.
    pose proof (find_none_sdrop _ (String.length (pre +:+ r)) _ Hfind) as H.
    by rewrite sdrop_app in H. }
  rewrite resolveValue_S, substituteVar_reference by done.
  rewrite Hl. cbn [bind ret]. rewrite split_absent by done. cbn [join].
  fold (hasVarToken (pre +:+ r +:+ post)). rewrite Hr. cbn. by rewrite !app_nil_r.
Qed.

(** X6.  A reference to a variable with a value that is not empty, inside
    a value: the reference is replaced by the value of the variable and the
    text around it is kept, when the result holds no [var]. *)
Theorem resolveValue_in_context fuel pre name post map v :
  is_name name = true -> map !! name = Some v -> truthy v = true ->
  hasVarToken (pre +:+ v +:+ post) = false ->
  resolveValue (S fuel) (pre +:+ "var(" +:+ name +:+ ")" +:+ post) map
    = ret (pre +:+ v +:+ post).
Proof.
  intros Hn Hm Hv Hr. apply resolveValue_lookup; [done | | done].
  unfold lookupVar. by rewrite Hm, Hv.
Qed.

Lemma resolveValue_in_context_witness :
  resolveValue 1 "calc(100% - var(--gap)) solid" {[ "--gap" := "4px" ]}
  = ret "calc(100% - 4px) solid".
Proof.
  exact (resolveValue_in_context 0 "calc(100% - " "--gap" ") solid" {[ "--gap" := "4px" ]}
           "4px" eq_refl eq_refl eq_refl eq_refl).
Defined.




(** X21.  Indirection of any depth: when each name of a list is defined
    by a reference to the next one and the last by a value without [var],
    a reference to the first resolves to that value in as many calls as
    there are names; the only warning is the one for an empty value. *)
Theorem resolveValue_any_depth map names value fuel :
  Forall (fun name => is_name name = true) names ->
  chain map names value -> hasVarToken value = false ->
  (length names <= fuel)%nat ->
  resolveValue fuel ("var(" +:+ default "" (head names) +:+ ")") map =
    (if truthy value then [] else [undefinedWarning (default "" (last names))],
     Returned value).
Proof.
  intros Hn. revert fuel. induction Hn as [|name rest Hname Hrest IH]; intros fuel Hc Hv Hf.
  - done.
  - destruct fuel as [|fuel]; [cbn in Hf; lia |]. cbn [length] in Hf.
    destruct rest as [|next rest].
    + change (default "" (head [name])) with name.
      change (default "" (last [name])) with name.
      by apply resolveValue_leaf.
    + destruct Hc as [Hm Hc].
      change (default "" (head (name :: next :: rest))) with name.
      change (default "" (last (name :: next :: rest)))
        with (default "" (last (next :: rest))).
      rewrite (resolveValue_link fuel name (next +:+ ")") map Hname Hm).
      by rewrite <- (IH fuel Hc Hv) by lia.
Qed.

Lemma resolveValue_any_depth_witness :
  resolveValue 4 "var(--d)"
    (<["--a" := "10px"]> (<["--b" := "var(--a)"]> (<["--c" := "var(--b)"]>
       (<["--d" := "var(--c)"]> ∅))))
  = ([], Returned "10px").
Proof.
  apply (resolveValue_any_depth
    (<["--a" := "10px"]> (<["--b" := "var(--a)"]> (<["--c" := "var(--b)"]>
       (<["--d" := "var(--c)"]> ∅))))
    ["--d"; "--c"; "--b"; "--a"] "10px" 4).
  - repeat (constructor; [reflexivity |]). constructor.
  - cbn [chain]. split; [by vm_compute |]. split; [by vm_compute |].
    split; by vm_compute.
  - reflexivity.
  - cbn [length]. lia.
Defined.

(** X22.  A reference cycle of any length: when every name of a set is
    defined by a reference to a name of the set, the resolution of a
    reference to one of them never returns; each call issues the next,
    without a warning. *)
Theorem reference_cycle_never_returns map (P : string -> Prop) name fuel :
  refersWithin map P -> P name ->
  resolveValue fuel ("var(" +:+ name +:+ ")") map = ([], Diverged).
Proof.
  intros HP. revert name. induction fuel as [|fuel IH]; intros name Hn; [done |].
  destruct (HP name Hn) as (Hname & next & Hnext & Hm).
  rewrite (resolveValue_link fuel name (next +:+ ")") map Hname Hm). by apply IH.
Qed.

Lemma reference_cycle_never_returns_witness :
  resolveValue 7 "var(--a)" (<["--a" := "var(--b)"]> (<["--b" := "var(--a)"]> ∅))
  = ([], Diverged).
Proof.
  apply (reference_cycle_never_returns
           (<["--a" := "var(--b)"]> (<["--b" := "var(--a)"]> ∅))
           (fun n => n = "--a" \/ n = "--b") "--a" 7); [| by left].
  intros n [-> | ->].
  - split; [reflexivity |]. exists "--b". split; [by right | by vm_compute].
  - split; [reflexivity |]. exists "--a". split; [by left | by vm_compute].
Defined.

(** ** The resolution loop, continued *)

Lemma resolveDecls_returned fuel s map ds ws ds' :
  resolveDecls fuel s map ds = (ws, Returned ds') ->
  exists dss, ds' = concat dss /\
    Forall2 (fun d ds1 => exists w, resolveDecl fuel s map d = (w, Returned ds1)) ds dss.
Proof.
  rewrite resolveDecls_spec. intros H.
  apply bind_returned in H as (w1 & dss & w2 & Hm & H & _).
  injection H as _ <-. exists dss. split; [done |]. by eapply mapM_returned.
Qed.

Lemma resolveDecl_returned fuel s map d w ds1 :
  resolveDecl fuel s map d = (w, Returned ds1) ->
  ds1 = [d] \/
  exists property value resolved,
    d = Declaration property value /\ hasVarToken resolved = false /\
    resolved <> "undefined" /\
    ds1 = if preserve s then [Declaration property resolved; d]
          else [Declaration property resolved].
Proof.
  destruct d as [property value | c]; cbn [resolveDecl]; [| intros [= _ <-]; by left].
  destruct (negb (truthy value) || _); [intros [= _ <-]; by left |].
  intros H. apply bind_returned in H as (w1 & resolved & w2 & Hr & H & _).
  apply resolveValue_no_var in Hr.
  destruct (String.eqb resolved "undefined") eqn:E.
  - injection H as _ <-. by left.
  - apply String.eqb_neq in E. right. exists property, value, resolved.
    repeat split; [done | done |]. destruct (preserve s); by injection H as _ <-.
Qed.

(** X8.  Without preserve the loop rewrites values in place: the list it
    returns has the length of the list it was given, with the same
    properties (and comments) at the same indices, and each declaration is
    the one given or has a resolved value in which no [var] is left. *)
Theorem resolveDecls_rewrites_in_place fuel s map ds ws ds' :
  preserve s = false ->
  resolveDecls fuel s map ds = (ws, Returned ds') ->
  Forall2 resolvedInto ds ds' /\
  length ds' = length ds /\
  decl_property <$> ds' = decl_property <$> ds.
Proof.
  intros Hp H. apply resolveDecls_returned in H as (dss & -> & H).
  assert (F : Forall2 resolvedInto ds (concat dss)).
  { induction H as [|d ds1 ds dss [w Hd] _ IH]; [constructor |].
    apply resolveDecl_returned in Hd as [-> | (p & v & r & -> & Hv & Hu & ->)].
    - constructor; [by left | exact IH].
    - rewrite Hp. constructor; [| exact IH]. right. by exists p, v, r. }
  split; [exact F |]. clear H. split.
  - symmetry. by eapply Forall2_length.
  - induction F as [|d d' ds ds' Hd _ IH]; [done |]. cbn. f_equal; [| exact IH].
    by destruct Hd as [-> | (p & v & r & -> & -> & _)].
Qed.

Lemma resolveDecls_rewrites_in_place_witness :
  resolveDecls 1 {| onlyVars := false; preserve := false; variables := [] |}
    {[ "--w" := "2px" ]}
    [DeclComment "c"; Declaration "width" "var(--w)"; Declaration "top" "var(--t)"]
  = ([undefinedWarning "--t"],
     Returned [DeclComment "c"; Declaration "width" "2px"; Declaration "top" "var(--t)"])
  /\ Forall2 resolvedInto
       [DeclComment "c"; Declaration "width" "var(--w)"; Declaration "top" "var(--t)"]
       [DeclComment "c"; Declaration "width" "2px"; Declaration "top" "var(--t)"].
Proof.
  split; [by vm_compute |].
  refine (proj1 (resolveDecls_rewrites_in_place 1
    {| onlyVars := false; preserve := false; variables := [] |}
    {[ "--w" := "2px" ]} _ [undefinedWarning "--t"] _ eq_refl _)).
  by vm_compute.
Defined.

(** X9.  With preserve the loop only inserts: the list it was given is a
    sublist of the list it returns, which has at most twice its length. *)
Theorem resolveDecls_preserve_keeps_all fuel s map ds ws ds' :
  preserve s = true ->
  resolveDecls fuel s map ds = (ws, Returned ds') ->
  sublist ds ds' /\ (length ds <= length ds' <= 2 * length ds)%nat.
Proof.
  intros Hp H. apply resolveDecls_returned in H as (dss & -> & H).
  induction H as [|d ds1 ds dss [w Hd] _ [IH1 IH2]]; [by split; [| cbn; lia] |].
  apply resolveDecl_returned in Hd as [-> | (p & v & r & -> & Hv & Hu & ->)]; cbn.
  - split; [by apply sublist_skip | rewrite ?length_app; cbn; lia].
  - rewrite Hp. cbn. split; [by apply sublist_cons, sublist_skip | lia].
Qed.

Lemma resolveDecls_preserve_keeps_all_witness :
  resolveDecls 1 defaults {[ "--w" := "2px" ]}
    [Declaration "width" "var(--w)"; Declaration "top" "0"]
  = ret [Declaration "width" "2px"; Declaration "width" "var(--w)"; Declaration "top" "0"]
  /\ sublist [Declaration "width" "var(--w)"; Declaration "top" "0"]
       [Declaration "width" "2px"; Declaration "width" "var(--w)"; Declaration "top" "0"].
Proof.
  split; [by vm_compute |].
  refine (proj1 (resolveDecls_preserve_keeps_all 1 defaults {[ "--w" := "2px" ]}
    [Declaration "width" "var(--w)"; Declaration "top" "0"] [] _ eq_refl _)).
  by vm_compute.
Defined.

(** ** The definition pass, continued *)

Lemma isRootRule_inv type selectors declarations :
  isRootRule (RuleDecls type selectors declarations) = true ->
  type = "rule" /\ selectors = [":root"].
Proof.
  cbn [isRootRule]. intros [[Ht Hl]%andb_prop Hs]%andb_prop.
  apply String.eqb_eq in Ht. apply Nat.eqb_eq in Hl. apply bool_decide_eq_true in Hs.
  split; [done |]. destruct selectors as [|x [|y l]]; try done. cbn in Hs. congruence.
Qed.

Lemma defineRule_without map r : (defineRule false map r).2 = withoutDefinitions r.
Proof.
  destruct r as [t sel ds | | |]; try done.
  unfold withoutDefinitions.
  destruct (isRootRule (RuleDecls t sel ds)) eqn:E.
  - apply isRootRule_inv in E as [-> ->]. apply defineRule_remove.
  - cbn [isRootRule] in E. cbn [defineRule].
    destruct (String.eqb t "rule"); [| done]. cbn [negb andb] in *.
    destruct (length sel =? 1)%nat; [| done]. cbn [negb andb orb] in *.
    by rewrite E.
Qed.

Lemma defineVars_without map rules :
  (defineVars false map rules).2 = withoutDefinitions <$> rules.
Proof.
  revert map. induction rules as [|r rules IH]; intros map; [done |].
  cbn [defineVars].
  pose proof (defineRule_without map r) as Hr.
  destruct (defineRule false map r) as [map1 r'].
  pose proof (IH map1) as Hrs.
  destruct (defineVars false map1 rules) as [map2 rules'].
  cbn [snd] in *. by subst.
Qed.

(** X10.  Without preserve the definition pass removes the definitions of
    every top-level root rule, leaves the other declarations of these rules
    in their order, and changes no other rule; the root rules inside a
    container keep their definitions. *)
Theorem defineVars_removes_definitions map rules :
  (defineVars false map rules).2 = withoutDefinitions <$> rules.
Proof. apply defineVars_without. Qed.

(** ** A tree without references *)

(** Induction on a rule with the hypothesis for the nested rules. *)
Lemma rule_nested_ind (P : rule -> Prop) :
  (forall type selectors declarations, P (RuleDecls type selectors declarations)) ->
  (forall name keyframes, P (RuleKeyframes name keyframes)) ->
  (forall type prelude rules, Forall P rules -> P (RuleNested type prelude rules)) ->
  (forall type text, P (RuleOther type text)) ->
  forall r, P r.
Proof.
  intros Hd Hk Hn Ho. fix IH 1. intros [t sel ds | n kfs | t p rs | t txt].
  - apply Hd.
  - apply Hk.
  - apply Hn. induction rs as [|r rs IHrs]; constructor; [apply IH | exact IHrs].
  - apply Ho.
Qed.

Lemma resolveDecls_plain fuel s map ds :
  forallb plainDecl ds = true -> resolveDecls fuel s map ds = ret ds.
Proof.
  intros H. apply resolveDecls_skip.
  apply Is_true_true, forallb_True in H. eapply Forall_impl; [exact H |].
  intros d Hd. apply Is_true_true in Hd. unfold plainDecl in Hd.
  destruct (decl_value d); [by apply negb_true_iff | done].
Qed.

Lemma walkCss_rule_plain fuel s map r :
  plainRule r = true -> walkCss_rule (resolveDecls fuel s map) r = ret r.
Proof.
  induction r as [t sel ds | n kfs | t p rs IH | t txt] using rule_nested_ind;
    cbn [plainRule walkCss_rule]; intros H.
  - by rewrite resolveDecls_plain.
  - rewrite mapM_id; [done |].
    apply Is_true_true, forallb_True in H. eapply Forall_impl; [exact H |].
    intros [vs ds | c] Hk; [| done]. apply Is_true_true in Hk.
    by rewrite resolveDecls_plain.
  - rewrite mapM_id; [done |].
    apply Is_true_true, forallb_True in H.
    rewrite Forall_forall in IH, H. apply Forall_forall. intros r Hr.
    apply IH; [done |]. by apply Is_true_true, H.
  - done.
Qed.

Lemma walkCss_plain fuel s map rules :
  forallb plainRule rules = true -> walkCss (resolveDecls fuel s map) rules = ret rules.
Proof.
  intros H. unfold walkCss. apply mapM_id.
  apply Is_true_true, forallb_True in H. eapply Forall_impl; [exact H |].
  intros r Hr. by apply walkCss_rule_plain, Is_true_true.
Qed.

Lemma overrideVars_rules_spec s map rules :
  (overrideVars s map rules).2 =
    rules ++ (if preserve s && nonzero (length (variables s))
              then [overrideRule (variables s)] else []).
Proof.
  unfold overrideVars.
  destruct (nonzero (length (variables s))).
  - rewrite foldl_overrideVar. cbn [snd app]. unfold overrideRule, overrideEntries.
    rewrite <- list_fmap_compose.
    destruct (preserve s); [done | by rewrite app_nil_r].
  - cbn [snd]. by rewrite andb_false_r, app_nil_r.
Qed.

Lemma plainRule_withoutDefinitions r :
  plainRule r = true -> plainRule (withoutDefinitions r) = true.
Proof.
  destruct r as [t sel ds | | |]; try done. unfold withoutDefinitions.
  destruct (isRootRule _); [| done]. cbn [plainRule].
  induction ds as [|d ds IH]; [done |]. cbn [forallb List.filter].
  intros [Hd Hds]%andb_prop. destruct (negb (isDefinition d)); [| by apply IH].
  cbn [forallb]. by rewrite Hd, IH.
Qed.

(** X11.  The transform of a tree in which no value holds a reference,
    when the filter is off and no override holds a reference: no warning is
    given and no call of [resolveValue] is made (the result does not depend
    on the fuel).  The rules come back as they are with preserve, and with
    the definitions of the top-level root rules removed without it; with
    preserve the rule of the overrides is appended when there are
    overrides. *)
Theorem transformVars_without_references fuel s rules :
  onlyVars s = false ->
  forallb plainRule rules = true ->
  forallb (fun e => negb (hasVarFunction e.2)) (variables s) = true ->
  transformVars fuel s rules =
    ret ((if preserve s then rules else withoutDefinitions <$> rules)
         ++ (if preserve s && nonzero (length (variables s))
             then [overrideRule (variables s)] else [])).
Proof.
  intros Ho Hr Hv. rewrite transformVars_two_pass, Ho, bind_ret_l.
  rewrite overrideVars_rules_spec.
  assert (Hd : (defineVars (preserve s) ∅ rules).2
               = if preserve s then rules else withoutDefinitions <$> rules).
  { destruct (preserve s); [apply defineVars_preserve | apply defineVars_without]. }
  rewrite Hd. apply walkCss_plain. rewrite forallb_app. apply andb_true_intro. split.
  - destruct (preserve s); [done |].
    apply Is_true_true, forallb_True. apply Is_true_true, forallb_True in Hr.
    apply Forall_fmap. eapply Forall_impl; [exact Hr |]. intros r Hp.
    cbn. by apply Is_true_true, plainRule_withoutDefinitions, Is_true_true.
  - destruct (preserve s && nonzero (length (variables s))); [| done].
    cbn [forallb plainRule overrideRule]. rewrite andb_true_r.
    clear -Hv. induction (variables s) as [|e vs IH]; [done |].
    cbn in Hv |- *. apply andb_prop in Hv as [He Hvs].
    by rewrite IH, andb_true_r.
Qed.

Lemma transformVars_without_references_witness :
  transformVars 0 {| onlyVars := false; preserve := false; variables := [("x", "1px")] |}
    [RuleDecls "rule" [":root"] [Declaration "--a" "2px"; Declaration "color" "red"];
     RuleNested "media" "print" [RuleDecls "rule" [":root"] [Declaration "--b" "3px"]]]
  = ret [RuleDecls "rule" [":root"] [Declaration "color" "red"];
         RuleNested "media" "print" [RuleDecls "rule" [":root"] [Declaration "--b" "3px"]]].
Proof.
  exact (transformVars_without_references 0
    {| onlyVars := false; preserve := false; variables := [("x", "1px")] |}
    [RuleDecls "rule" [":root"] [Declaration "--a" "2px"; Declaration "color" "red"];
     RuleNested "media" "print" [RuleDecls "rule" [":root"] [Declaration "--b" "3px"]]]
    eq_refl eq_refl eq_refl).
Defined.

(** ** The rule filter, continued *)

Lemma filterVars_rule_keyframes name keyframes :
  forallb isStep keyframes = true ->
  filterVars_rule (RuleKeyframes name keyframes) =
    ret (if existsb hasVarStep keyframes
         then Some (RuleKeyframes name keyframes) else None).
Proof.
  intros H. cbn [filterVars_rule].
  rewrite (filterM_ret _ hasVarStep).
  - by rewrite bind_ret_l, nonzero_filter.
  - apply Forall_forall. intros k Hk.
    destruct k as [vs ds | c]; [by rewrite nonzero_filter |].
    apply Is_true_true in H. rewrite forallb_True in H.
    rewrite Forall_forall in H. by specialize (H _ Hk).
Qed.

Lemma filterVars_rule_keyframes_comment name keyframes :
  forallb isStep keyframes = false ->
  filterVars_rule (RuleKeyframes name keyframes) = throw TypeError.
Proof.
  intros H. cbn [filterVars_rule]. unfold filterM.
  induction keyframes as [|k ks IH]; [done |].
  cbn [forallb] in H. cbn [mapM]. destruct k as [vs ds | c]; [| done].
  cbn [isStep andb] in H. rewrite !bind_ret_l.
  specialize (IH H).
  destruct (mapM _ ks) as [w [a | e |]] eqn:E; cbn in IH |- *; try done.
Qed.

Lemma filterVars_rule_steps name keyframes :
  filterVars_rule (RuleKeyframes name keyframes) =
    if forallb isStep keyframes
    then ret (if existsb hasVarStep keyframes
              then Some (RuleKeyframes name keyframes) else None)
    else throw TypeError.
Proof.
  destruct (forallb isStep keyframes) eqn:E.
  - by apply filterVars_rule_keyframes.
  - by apply filterVars_rule_keyframes_comment.
Qed.

(** X12.  The filter on a keyframes rule.  When every entry of the list is
    a step, the rule is kept whole if a declaration of some step passes the
    test and dropped otherwise.  When an entry is a comment, the read of
    its declarations throws. *)
Theorem filterVars_keyframes_rule name keyframes :
  filterVars_rule (RuleKeyframes name keyframes) =
    if forallb isStep keyframes
    then ret (if existsb hasVarStep keyframes
              then Some (RuleKeyframes name keyframes) else None)
    else throw TypeError.
Proof. apply filterVars_rule_steps. Qed.

Lemma hasVarDecl_nonempty r :
  hasVarDecl r = true ->
  match r with
  | RuleDecls _ _ declarations => ret (nonzero (length declarations))
  | _ => throw TypeError
  end = ret true.
Proof. destruct r as [t sel [|d ds] | | |]; done. Qed.

Lemma filterVars_rule_plain r :
  isPlainRule r = true ->
  filterVars_rule r = ret (if hasVarDecl r then Some r else None).
Proof. destruct r; [intros _ | done..]. apply filterVars_rule_decls. Qed.

Lemma filterVars_rule_nested type prelude rules :
  forallb isPlainRule rules = true ->
  filterVars_rule (RuleNested type prelude rules) =
    ret (if existsb hasVarDecl rules
         then Some (RuleNested type prelude (List.filter hasVarDecl rules))
         else None).
Proof.
  intros H. cbn [filterVars_rule].
  rewrite (mapM_ret _ (fun r => if hasVarDecl r then Some r else None)).
  2: { apply Is_true_true in H. rewrite forallb_True in H.
       eapply Forall_impl; [exact H |]. intros r Hr. apply filterVars_rule_plain.
       by apply Is_true_true. }
  rewrite bind_ret_l, omap_filter.
  rewrite (filterM_ret _ (fun _ => true)).
  2: { apply Forall_forall. intros r Hr.
       apply list_elem_of_In, filter_In in Hr as [_ Hr]. by apply hasVarDecl_nonempty. }
  rewrite bind_ret_l.
  replace (List.filter (fun _ => true) (List.filter hasVarDecl rules))
    with (List.filter hasVarDecl rules).
  2: { induction (List.filter hasVarDecl rules) as [|x l IH]; [done |]. cbn. by f_equal. }
  by rewrite nonzero_filter.
Qed.

(** X13.  The filter on a container whose nested rules are all rules
    with declarations: the container is kept with exactly the nested rules
    of which a declaration passes the test, each whole and in order, and
    dropped when there is none. *)
Theorem filterVars_container type prelude rules :
  forallb isPlainRule rules = true ->
  filterVars_rule (RuleNested type prelude rules) =
    ret (if existsb hasVarDecl rules
         then Some (RuleNested type prelude (List.filter hasVarDecl rules))
         else None).
Proof. apply filterVars_rule_nested. Qed.

Lemma filterVars_container_witness :
  filterVars_rule
    (RuleNested "media" "print"
       [RuleDecls "rule" ["a"] [Declaration "color" "red"];
        RuleDecls "rule" ["b"] [Declaration "color" "var(--c)"; Declaration "top" "0"]])
  = ret (Some (RuleNested "media" "print"
                 [RuleDecls "rule" ["b"]
                    [Declaration "color" "var(--c)"; Declaration "top" "0"]])).
Proof.
  exact (filterVars_container "media" "print"
    [RuleDecls "rule" ["a"] [Declaration "color" "red"];
     RuleDecls "rule" ["b"] [Declaration "color" "var(--c)"; Declaration "top" "0"]]
    eq_refl).
Defined.

Lemma filterVars_rule_returns_plain r ws x :
  filterVars_rule r = (ws, Returned (Some x)) -> isPlainRule x = true ->
  hasVarDecl x = true.
Proof.
  destruct r as [t sel ds | n kfs | t p rs | t txt].
  - rewrite filterVars_rule_decls. cbn [hasVarDecl].
    destruct (existsb isVarDecl ds) eqn:E; [| done]. by intros [= _ <-].
  - rewrite filterVars_rule_steps.
    destruct (forallb isStep kfs); [| done].
    destruct (existsb hasVarStep kfs); [| done]. by intros [= _ <-].
  - cbn [filterVars_rule]. intros H.
    apply bind_returned in H as (w1 & filtered & w2 & _ & H & _).
    apply bind_returned in H as (w3 & rules & w4 & _ & H & _).
    destruct (nonzero (length rules)); [| done]. by injection H as _ <-.
  - by intros [= _ <-].
Qed.

Lemma filterVars_rule_survivor r ws r' :
  filterVars_rule r = (ws, Returned (Some r')) -> survivor r' = true.
Proof.
  destruct r as [t sel ds | n kfs | t p rs | t txt].
  - rewrite filterVars_rule_decls.
    destruct (existsb isVarDecl ds) eqn:E; [| done]. by intros [= _ <-].
  - rewrite filterVars_rule_steps.
    destruct (forallb isStep kfs) eqn:E1; [| done].
    destruct (existsb hasVarStep kfs) eqn:E2; [| done].
    intros [= _ <-]. cbn. by rewrite E1, E2.
  - cbn [filterVars_rule]. intros H.
    apply bind_returned in H as (w1 & filtered & w2 & Hf & H & _).
    apply bind_returned in H as (w3 & rules & w4 & Hr & H & _).
    destruct (nonzero (length rules)) eqn:E; [| done]. injection H as _ <-.
    cbn [survivor]. rewrite E. cbn [andb].
    apply Is_true_true, forallb_True.
    apply filterM_returned in Hr. apply mapM_returned in Hf.
    eapply Forall_impl; [exact Hr |]. intros x [Hin [w Hx]].
    apply omap_id_In in Hin. apply Is_true_true.
    assert (Hplain : isPlainRule x = true) by (by destruct x).
    clear Hx Hr E. induction Hf as [|r0 y rs filtered [w' Hy] _ IH]; [done |].
    destruct Hin as [-> | Hin]; [| by apply IH].
    by eapply filterVars_rule_returns_plain.
  - by intros [= _ <-].
Qed.

Lemma hasVarDecl_plain r : hasVarDecl r = true -> isPlainRule r = true.
Proof. by destruct r. Qed.

Lemma survivor_stays r : survivor r = true -> filterVars_rule r = ret (Some r).
Proof.
  destruct r as [t sel ds | n kfs | t p rs | t txt]; cbn [survivor].
  - intros H. by rewrite filterVars_rule_decls, H.
  - intros [H1 H2]%andb_prop. by rewrite filterVars_rule_steps, H1, H2.
  - intros [H1 H2]%andb_prop. rewrite filterVars_rule_nested.
    + rewrite (filter_all _ _ H2).
      destruct rs as [|r rs]; [done |]. cbn in H2 |- *.
      apply andb_prop in H2 as [-> _]. done.
    + apply Is_true_true, forallb_True. apply Is_true_true, forallb_True in H2.
      eapply Forall_impl; [exact H2 |]. intros r Hr.
      by apply Is_true_true, hasVarDecl_plain, Is_true_true.
  - done.
Qed.

(** X14.  When the filter returns, every rule of its result has the form
    of a kept rule, and filtering the result again returns it unchanged.
    In particular a container of the result holds rules with declarations
    only: a call on a container in which a keyframes rule, another container
    or a rule without declarations is kept has thrown. *)
Theorem filterVars_idempotent rules ws rules' :
  filterVars rules = (ws, Returned rules') ->
  forallb survivor rules' = true /\ filterVars rules' = ret rules'.
Proof.
  unfold filterVars at 1. intros H.
  apply bind_returned in H as (w1 & filtered & w2 & Hf & H & _).
  injection H as _ <-. apply mapM_returned in Hf.
  assert (Hs : Forall (fun r => survivor r = true) (omap id filtered)).
  { induction Hf as [|r0 y rs filtered [w Hy] _ IH]; [constructor |].
    destruct y as [r'|]; cbn; [| exact IH].
    constructor; [by eapply filterVars_rule_survivor | exact IH]. }
  split.
  - apply Is_true_true, forallb_True. eapply Forall_impl; [exact Hs |].
    intros r Hr. by apply Is_true_true.
  - unfold filterVars. rewrite (mapM_ret _ Some).
    + by rewrite bind_ret_l, omap_id_Some.
    + eapply Forall_impl; [exact Hs |]. intros r Hr. by apply survivor_stays.
Qed.

Lemma filterVars_idempotent_witness :
  forallb survivor
    [RuleNested "media" "print" [RuleDecls "rule" ["b"] [Declaration "color" "var(--c)"]]]
  = true /\
  filterVars
    [RuleNested "media" "print" [RuleDecls "rule" ["b"] [Declaration "color" "var(--c)"]]]
  = ret [RuleNested "media" "print"
           [RuleDecls "rule" ["b"] [Declaration "color" "var(--c)"]]].
Proof.
  apply (filterVars_idempotent
    [RuleDecls "rule" ["a"] [Declaration "color" "red"];
     RuleNested "media" "print"
       [RuleDecls "rule" ["a"] [Declaration "color" "red"];
        RuleDecls "rule" ["b"] [Declaration "color" "var(--c)"]]] []).
  by vm_compute.
Defined.

(** ** The markers, continued *)

Lemma pretty_N_char_digit x : is_digit (pretty_N_char x) = true.
Proof. unfold pretty_N_char. by repeat case_match. Qed.

Lemma pretty_N_go_digits x s :
  all_chars is_digit s = true -> all_chars is_digit (pretty_N_go x s) = true.
Proof.
  revert s. induction (N.lt_wf_0 x) as [x _ IH]; intros s Hs.
  assert (x = 0 \/ 0 < x)%N as [-> | Hx] by lia; [by rewrite pretty_N_go_0 |].
  rewrite pretty_N_go_step by done. apply IH; [by apply N.div_lt |].
  cbn [all_chars]. by rewrite pretty_N_char_digit, Hs.
Qed.

Lemma pretty_N_go_truthy x s :
  truthy s = true -> truthy (pretty_N_go x s) = true.
Proof.
  revert s. induction (N.lt_wf_0 x) as [x _ IH]; intros s Hs.
  assert (x = 0 \/ 0 < x)%N as [-> | Hx] by lia; [by rewrite pretty_N_go_0 |].
  rewrite pretty_N_go_step by done. apply IH; [by apply N.div_lt | done].
Qed.

Lemma decimal_digits i : all_chars is_digit (decimal i) = true /\ truthy (decimal i) = true.
Proof.
  unfold decimal, pretty, pretty_nat, pretty, pretty_N.
  destruct (decide (N.of_nat i = 0%N)) as [_ | Hi]; [done |].
  split; [by apply pretty_N_go_digits |].
  rewrite pretty_N_go_step by lia. by apply pretty_N_go_truthy.
Qed.

Lemma marker_length i : String.length (marker i) = (20 + String.length (decimal i) + 4)%nat.
Proof. unfold marker. rewrite !length_append. cbn. lia. Qed.

Lemma cssMarker_at_marker i rest :
  cssMarker_at (marker i +:+ rest) = Some (decimal i, String.length (marker i)).
Proof.
  destruct (decimal_digits i) as [Hd Ht].
  unfold cssMarker_at, marker. rewrite !append_assoc.
  rewrite startsWith_app.
  change (sdrop 20 ("/*__CSSVARSPONYFILL-" +:+ ?s)) with s.
  rewrite (span_app is_digit (decimal i) ("__*/" +:+ rest)) by done.
  rewrite Ht. change (startsWith "__*/" ("__*/" +:+ rest)) with (startsWith "" rest).
  cbn [startsWith andb]. f_equal. f_equal.
  rewrite !length_append. cbn. lia.
Qed.

Lemma cssArray_get_from (cssArray : list string) (k i : nat) :
  (k <= i)%nat ->
  snd <$> List.find (fun e => String.eqb (decimal (fst e)) (decimal i))
            (imap (fun j css => ((k + j)%nat, css)) cssArray)
  = cssArray !! (i - k)%nat.
Proof.
  revert k. induction cssArray as [|css cssArray IH]; intros k Hk; [done |].
  cbn [imap List.find fst]. rewrite Nat.add_0_r.
  destruct (String.eqb (decimal k) (decimal i)) eqn:E.
  - apply String.eqb_eq in E. apply (inj pretty) in E as ->.
    by rewrite Nat.sub_diag.
  - apply String.eqb_neq in E. assert (k <> i) by congruence.
    rewrite (imap_ext _ (fun j css => ((S k + j)%nat, css))).
    2: { intros j x _. cbn. f_equal. lia. }
    rewrite IH by lia. by replace (i - k)%nat with (S (i - S k)) by lia.
Qed.

Lemma cssArray_get_index (cssArray : list string) (i : nat) :
  cssArray_get cssArray (decimal i) = cssArray !! i.
Proof.
  unfold cssArray_get. pose proof (cssArray_get_from cssArray 0 i (Nat.le_0_l i)) as H.
  rewrite Nat.sub_0_r in H. rewrite <- H.
  by rewrite (imap_ext _ (fun j css => ((0 + j)%nat, css))) by done.
Qed.

(** X15.  The marker of the chunk of index [i] is recognised by the pattern
    of the restore loop, whatever follows it, with the decimal form of [i]
    as its group, and the read of [cssArray] at that group is the read at
    index [i]. *)
Theorem marker_round_trip (cssArray : list string) (i : nat) (rest : string) :
  cssMarker_at (marker i +:+ rest) = Some (decimal i, String.length (marker i)) /\
  cssArray_get cssArray (decimal i) = cssArray !! i.
Proof. split; [apply cssMarker_at_marker | apply cssArray_get_index]. Qed.

Lemma getSubstitution_plain matched before after replacement :
  all_chars no_dollar replacement = true ->
  getSubstitution matched before after replacement = replacement.
Proof.
  induction replacement as [|c r IH]; [done |]. cbn [all_chars].
  intros [Hc Hr]%andb_prop. specialize (IH Hr).
  destruct c as [[|] [|] [|] [|] [|] [|] [|] [|]];
    try (cbn [getSubstitution]; by rewrite IH); done.
Qed.

Lemma cssMarker_at_prefix s : startsWith markerPrefix s = false -> cssMarker_at s = None.
Proof. intros H. unfold cssMarker_at. fold markerPrefix. by rewrite H. Qed.

Lemma cssMarker_search_none pos s :
  find markerPrefix s = None -> cssMarker_search pos s = None.
Proof.
  revert pos. induction s as [|c s IH]; intros pos H.
  - cbn [cssMarker_search]. by rewrite cssMarker_at_prefix by by apply find_none_startsWith.
  - cbn [cssMarker_search]. rewrite cssMarker_at_prefix by by apply find_none_startsWith.
    apply IH. cbn [find] in H. destruct (startsWith _ _); [done |].
    by destruct (find markerPrefix s).
Qed.

Lemma cssMarker_search_first pos s k digits n :
  find markerPrefix s = Some k -> cssMarker_at (sdrop k s) = Some (digits, n) ->
  cssMarker_search pos s = Some ((pos + k)%nat, digits, n).
Proof.
  revert pos k. induction s as [|c s IH]; intros pos k Hk Hat.
  - cbn [find] in Hk. destruct (startsWith markerPrefix "") eqn:E; [| done].
    injection Hk as <-. cbn [sdrop] in Hat. cbn [cssMarker_search]. rewrite Hat.
    by rewrite Nat.add_0_r.
  - cbn [find] in Hk. destruct (startsWith markerPrefix (String c s)) eqn:E.
    + injection Hk as <-. cbn [sdrop] in Hat. cbn [cssMarker_search]. rewrite Hat.
      by rewrite Nat.add_0_r.
    + destruct (find markerPrefix s) as [j|] eqn:Ej; [| done]. injection Hk as <-.
      cbn [cssMarker_search]. rewrite (cssMarker_at_prefix _ E).
      rewrite (IH (S pos) j eq_refl Hat). f_equal. f_equal. f_equal. lia.
Qed.

(** X16.  A transformed text with one marker, for a chunk of [cssArray]
    without a dollar sign: the loop replaces the marker by the chunk and
    leaves the text around it as it is.  [pre] is the text before the
    marker and [post] the text after it; neither the chunk nor [post] holds
    the constant part of a marker. *)
Theorem restoreMarkers_single (cssArray : list string) (i : nat) (css pre post : string)
    (fuel : nat) :
  cssArray !! i = Some css ->
  all_chars no_dollar css = true ->
  find markerPrefix (pre +:+ marker i +:+ post) = Some (String.length pre) ->
  find markerPrefix (css +:+ post) = None ->
  restoreMarkers (S (S fuel)) cssArray (pre +:+ marker i +:+ post) 0
    = Returned (pre +:+ css +:+ post).
Proof.
  intros Hi Hd Hfirst Hnone.
  set (text := pre +:+ marker i +:+ post) in *.
  assert (Hdrop : sdrop (String.length pre) text = marker i +:+ post) by apply sdrop_app.
  (* the first turn *)
  assert (Hexec : cssMarker_exec text 0
                  = Some (marker i, decimal i, (String.length pre + String.length (marker i))%nat)).
  { unfold cssMarker_exec. cbn [Nat.ltb Nat.leb sdrop].
    replace (String.length text <? 0)%nat with false by (symmetry; apply Nat.ltb_ge; lia).
    rewrite (cssMarker_search_first 0 text (String.length pre) (decimal i)
               (String.length (marker i)) Hfirst)
      by (rewrite Hdrop; apply cssMarker_at_marker).
    cbn [Nat.add]. by rewrite Hdrop, stake_app. }
  assert (Hrepl : replaceString text (marker i) css = pre +:+ css +:+ post).
  { unfold replaceString. change (marker i) with (markerPrefix +:+ decimal i +:+ "__*/") at 1.
    rewrite (find_extend markerPrefix (decimal i +:+ "__*/") text (String.length pre) Hfirst)
      by (rewrite Hdrop; apply (startsWith_app (marker i))).
    rewrite getSubstitution_plain by done.
    unfold text. by rewrite stake_app, sdrop_app_more, sdrop_app. }
  cbn [restoreMarkers]. rewrite Hexec.
  rewrite cssArray_get_index, Hi. cbn [ofOption default].
  change (id css) with css. rewrite Hrepl.
  cut (cssMarker_exec (pre +:+ css +:+ post)
         (String.length pre + String.length (marker i)) = None); [by intros -> |].
  unfold cssMarker_exec. destruct (_ <? _)%nat; [done |].
  rewrite sdrop_app_more, cssMarker_search_none; [done |].
  by apply find_none_sdrop.
Qed.

Lemma restoreMarkers_single_witness :
  coalesce [":root{--x:1px}"; "b{}"; "c{--y:var(--x)}"]
    = ":root{--x:1px}" +:+ marker 1 +:+ "c{--y:var(--x)}" /\
  onComplete 2 id [":root{--x:1px}"; "b{}"; "c{--y:var(--x)}"]
    = Returned ":root{--x:1px}b{}c{--y:var(--x)}".
Proof.
  split; [reflexivity |].
  exact (restoreMarkers_single [":root{--x:1px}"; "b{}"; "c{--y:var(--x)}"] 1 "b{}"
           ":root{--x:1px}" "c{--y:var(--x)}" 0 eq_refl eq_refl eq_refl eq_refl).
Defined.

(** ** The test of the chunks *)

Lemma matches_lit l s k : matches (Lit l) (l +:+ s) k = k s.
Proof. cbn [matches]. by rewrite startsWith_app, sdrop_app. Qed.

Lemma matches_star_class p a s k :
  all_chars p a = true -> k s = true -> matches (Star (Class p)) (a +:+ s) k = true.
Proof.
  intros Ha Hk. cbn [matches].
  match goal with |- ?f _ _ = true =>
    cut (forall n a, (String.length a <= n)%nat -> all_chars p a = true ->
                     f n (a +:+ s) = true)
  end.
  { intros H. apply H; [rewrite length_append; lia | done]. }
  clear a Ha. intros n a. revert n. induction a as [|c a IH]; intros n Hn Ha.
  - rewrite append_nil. destruct n; [done |]. by rewrite Hk, orb_true_r.
  - destruct n as [|n]; [cbn in Hn; lia |].
    rewrite append_cons. cbn [all_chars] in Ha. apply andb_prop in Ha as [Hc Ha].
    cbn [String.length] in Hn. rewrite Hc. cbn [andb].
    replace (String.length (a +:+ s) <? String.length (String c (a +:+ s)))%nat
      with true by (symmetry; apply Nat.ltb_lt; cbn; lia).
    cbn [andb]. rewrite IH by (done || lia). done.
Qed.

Lemma matches_star_skip r s k : k s = true -> matches (Star r) s k = true.
Proof.
  intros Hk. cbn [matches]. destruct (String.length s); [done |].
  by rewrite Hk, orb_true_r.
Qed.

Lemma test_app r pre s : matches r s (fun _ => true) = true -> test r (pre +:+ s) = true.
Proof.
  intros H. induction pre as [|c pre IH].
  - rewrite append_nil. destruct s; cbn [test]; by rewrite H.
  - rewrite append_cons. cbn [test]. by rewrite IH, orb_true_r.
Qed.

Lemma matches_name body e post k :
  truthy body = true -> all_chars not_closing body = true -> char_in ":)" e = true ->
  k post = true ->
  matches (Seq (Seq (Lit "--") (Plus (Class not_closing)))
             (Seq (Star (Class is_space)) (Class (char_in ":)"))))
    ("--" +:+ body +:+ String e post) k = true.
Proof.
  intros Ht Hb He Hk. destruct body as [|c body]; [done |].
  cbn [all_chars] in Hb. apply andb_prop in Hb as [Hc Hb].
  cbn [matches Plus]. rewrite startsWith_app, sdrop_app. cbn [andb].
  rewrite append_cons, Hc. cbn [andb].
  change ((fix turn (n : nat) (s : string) {struct n} : bool := _) ?n ?s)
    with (matches (Star (Class not_closing)) s
            (fun s' => matches (Star (Class is_space)) s'
                         (fun s'' => match s'' with
                                     | String c s3 => char_in ":)" c && k s3
                                     | EmptyString => false
                                     end))).
  apply matches_star_class; [done |].
  apply matches_star_skip. by rewrite He.
Qed.

(** X17.  A chunk with a reference passes the test of [regex.cssVars] and
    is never replaced by a marker: [var(], optional white space, two
    hyphens, at least one code unit that is neither a colon nor a closing
    parenthesis, and then one of the two. *)
Theorem chunk_with_reference_passes (pre ws body post : string) (e : ascii) :
  all_chars is_space ws = true ->
  truthy body = true -> all_chars not_closing body = true -> char_in ":)" e = true ->
  test regex_cssVars (pre +:+ "var(" +:+ ws +:+ "--" +:+ body +:+ String e post) = true.
Proof.
  intros Hws Ht Hb He. apply test_app. unfold regex_cssVars.
  cbn [matches]. apply orb_true_iff. right.
  change (startsWith "var(" ("var(" +:+ ?s)) with true.
  change (sdrop (String.length "var(") ("var(" +:+ ?s)) with s. cbn [andb].
  change ((fix turn (n : nat) (s : string) {struct n} : bool := _) ?n ?s)
    with (matches (Star (Class is_space)) s
            (fun s' => matches (Seq (Seq (Lit "--") (Plus (Class not_closing)))
                                  (Seq (Star (Class is_space)) (Class (char_in ":)"))))
                         s' (fun _ => true))).
  apply matches_star_class; [done |]. by apply matches_name.
Qed.

Lemma chunk_with_reference_passes_witness :
  test regex_cssVars "a{color:var( --c, red)}" = true.
Proof.
  exact (chunk_with_reference_passes "a{color:" " " "c, red" "}" ")"
           eq_refl eq_refl eq_refl eq_refl).
Defined.

(** X18.  A chunk with a definition in a root rule passes the test:
    [:root], optional white space, an opening brace, text without a
    semicolon, optional semicolons and white space, and then a name that
    starts with two hyphens, up to its colon. *)
Theorem chunk_with_root_definition_passes
    (pre ws1 skipped semis ws2 body post : string) (e : ascii) :
  all_chars is_space ws1 = true ->
  all_chars (fun c => negb (char_is ";" c)) skipped = true ->
  all_chars (char_is ";") semis = true ->
  all_chars is_space ws2 = true ->
  truthy body = true -> all_chars not_closing body = true -> char_in ":)" e = true ->
  test regex_cssVars
    (pre +:+ ":root" +:+ ws1 +:+ "{" +:+ skipped +:+ semis +:+ ws2
         +:+ "--" +:+ body +:+ String e post) = true.
Proof.
  intros H1 Hsk Hsm H2 Ht Hb He. apply test_app. unfold regex_cssVars.
  change (matches (Seq (Alt ?A ?B) ?N) ?s ?k)
    with (matches A s (fun s' => matches N s' k) || matches B s (fun s' => matches N s' k)).
  apply orb_true_iff. left.
  repeat change (matches (Seq ?r1 ?r2) ?s ?k) with (matches r1 s (fun s' => matches r2 s' k)).
  rewrite matches_lit.
  apply matches_star_class; [done |]. rewrite matches_lit.
  apply matches_star_skip.
  apply matches_star_class; [done |].
  apply matches_star_class; [done |].
  apply matches_star_class; [done |].
  by apply (matches_name body e post (fun _ => true)).
Qed.

Lemma chunk_with_root_definition_passes_witness :
  test regex_cssVars ":root {color:red;--x:1px}" = true.
Proof.
  exact (chunk_with_root_definition_passes "" " " "color:red" ";" "" "x" "1px}" ":"
           eq_refl eq_refl eq_refl eq_refl eq_refl eq_refl eq_refl).
Defined.

Lemma isSuffix_refl s : isSuffix s s.
Proof. by exists 0%nat. Qed.

Lemma isSuffix_trans t u s : isSuffix t u -> isSuffix u s -> isSuffix t s.
Proof. intros [n ->] [m ->]. exists (m + n)%nat. apply sdrop_sdrop. Qed.

Lemma isSuffix_tail c s : isSuffix s (String c s).
Proof. by exists 1%nat. Qed.

(** Where a match succeeds, what the continuation accepts is a suffix of
    the input. *)
Lemma matches_suffix r :
  forall s k, matches r s k = true -> exists t, isSuffix t s /\ k t = true.
Proof.
  induction r as [p | l | r1 IH1 r2 IH2 | r1 IH1 r2 IH2 | r1 IH1]; intros s k; cbn [matches].
  - destruct s as [|c s]; [done |]. intros [_ H]%andb_prop.
    exists s. split; [apply isSuffix_tail | done].
  - intros [_ H]%andb_prop. exists (sdrop (String.length l) s). split; [by eexists | done].
  - intros H. apply IH1 in H as (t1 & Hs1 & H). apply IH2 in H as (t2 & Hs2 & H).
    exists t2. split; [by eapply isSuffix_trans | done].
  - intros [H | H]%orb_prop; [by apply IH1 | by apply IH2].
  - generalize (String.length s) as n. intros n. revert s.
    induction n as [|n IHn]; intros s H.
    + exists s. split; [apply isSuffix_refl | done].
    + apply orb_prop in H as [H | H].
      * apply IH1 in H as (t1 & Hs1 & H). apply andb_prop in H as [_ H].
        apply IHn in H as (t2 & Hs2 & H).
        exists t2. split; [by eapply isSuffix_trans | done].
      * exists s. split; [apply isSuffix_refl | done].
Qed.

Lemma test_suffix r s :
  test r s = true -> exists t, isSuffix t s /\ matches r t (fun _ => true) = true.
Proof.
  induction s as [|c s IH]; cbn [test].
  - rewrite orb_false_r. intros H. exists "". split; [apply isSuffix_refl | done].
  - intros [H | H]%orb_prop.
    + exists (String c s). split; [apply isSuffix_refl | done].
    + apply IH in H as (t & Hs & H). exists t. split; [| done].
      eapply isSuffix_trans; [exact Hs | apply isSuffix_tail].
Qed.

Lemma startsWith_find p s t :
  isSuffix t s -> startsWith p t = true -> is_Some (find p s).
Proof.
  intros [n ->]. revert s. induction n as [|n IH]; intros s H.
  - destruct s; cbn [sdrop find] in *; rewrite H; by eexists.
  - destruct s as [|c s]; cbn [sdrop] in H.
    + cbn [find]. rewrite H. by eexists.
    + cbn [find]. destruct (startsWith p (String c s)); [by eexists |].
      destruct (IH s H) as [i ->]. by eexists.
Qed.

(** X19.  A chunk without two hyphens in a row fails the test of
    [regex.cssVars]: it is replaced by its marker and not transformed. *)
Theorem chunk_without_hyphens_is_inert (css : string) :
  find "--" css = None -> test regex_cssVars css = false.
Proof.
  intros Hn. destruct (test regex_cssVars css) eqn:E; [| done].
  apply test_suffix in E as (t & Hs & H). unfold regex_cssVars in H.
  change (matches (Seq ?A (Seq (Seq (Lit "--") ?X) ?Y)) ?s ?k)
    with (matches A s (fun s1 => matches (Lit "--") s1
            (fun s2 => matches X s2 (fun s3 => matches Y s3 k)))) in H.
  apply matches_suffix in H as (t1 & Hs1 & H).
  cbn [matches] in H. apply andb_prop in H as [H _].
  destruct (startsWith_find "--" css t1) as [i Hi]; [| done | congruence].
  by eapply isSuffix_trans.
Qed.

Lemma chunk_without_hyphens_is_inert_witness :
  test regex_cssVars "a{color:var(-x)}" = false.
Proof. exact (chunk_without_hyphens_is_inert "a{color:var(-x)}" eq_refl). Defined.

(** X20.  The test of [regex.cssKeyframes], which decides whether the
    keyframes are fixed after an update: a text with [@keyframes], or with
    [@-], a vendor name made of letters, digits and underscores, and
    [-keyframes], passes; a text without the word [keyframes] fails. *)
Theorem keyframes_test_spec :
  (forall pre post, test regex_cssKeyframes (pre +:+ "@keyframes" +:+ post) = true) /\
  (forall pre vendor post,
     all_chars is_word vendor = true ->
     test regex_cssKeyframes (pre +:+ "@-" +:+ vendor +:+ "-keyframes" +:+ post) = true) /\
  (forall css, find "keyframes" css = None -> test regex_cssKeyframes css = false).
Proof.
  split; [| split].
  - intros pre post. apply test_app. reflexivity.
  - intros pre vendor post Hv. apply test_app. unfold regex_cssKeyframes.
    repeat change (matches (Seq ?r1 ?r2) ?s ?k) with (matches r1 s (fun s' => matches r2 s' k)).
    change ("@-" +:+ vendor +:+ "-keyframes" +:+ post)
      with ("@" +:+ "-" +:+ vendor +:+ "-" +:+ "keyframes" +:+ post).
    rewrite matches_lit.
    change (matches (Alt ?A ?B) ?s ?k) with (matches A s k || matches B s k).
    apply orb_true_iff. left.
    repeat change (matches (Seq ?r1 ?r2) ?s ?k) with (matches r1 s (fun s' => matches r2 s' k)).
    rewrite matches_lit. apply matches_star_class; [done |].
    by rewrite !matches_lit.
  - intros css Hn. destruct (test regex_cssKeyframes css) eqn:E; [| done].
    apply test_suffix in E as (t & Hs & H). unfold regex_cssKeyframes in H.
    change (matches (Seq ?A (Seq ?B ?C)) ?s ?k)
      with (matches A s (fun s1 => matches B s1 (fun s2 => matches C s2 k))) in H.
    apply matches_suffix in H as (t1 & Hs1 & H).
    apply matches_suffix in H as (t2 & Hs2 & H).
    cbn [matches] in H. apply andb_prop in H as [H _].
    destruct (startsWith_find "keyframes" css t2) as [i Hi]; [| done | congruence].
    eapply isSuffix_trans; [exact Hs2 |]. by eapply isSuffix_trans.
Qed.

Lemma keyframes_test_spec_witness :
  test regex_cssKeyframes "a{} @-webkit-keyframes k{}" = true /\
  test regex_cssKeyframes "a{animation:k}" = false.
Proof.
  destruct keyframes_test_spec as (_ & Hv & Hn). split.
  - exact (Hv "a{} " "webkit" " k{}" eq_refl).
  - exact (Hn "a{animation:k}" eq_refl).
Defined.

(** * The two passes and the overrides *)

(** ** One reference in a tree *)




















(** ** The two passes *)



(** ** The overrides *)




